(** * primitive_db: a shallow embedding of the query core

    The development follows [src/primitive_db/core.py] (schema manager,
    value coercion, record engine), [src/primitive_db/utils.py] (the JSON
    persistence layer) and [parse_command_parts] of
    [src/primitive_db/engine.py].

    Conventions.
    - A Python [str] is a sequence of Unicode code points: [pystr] is
      [list N].  ASCII literals are written [str "..."].
    - A Python [dict] used as a map is a [gmap]; the order of the keys of a
      JSON document is not modelled.
    - File input/output is explicit: the operations of the record engine run
      in a small state-and-error monad over a [world] that holds the record
      documents and a log of the load/save calls made so far.
    - [print] is modelled by the value an operation returns. *)

From Stdlib Require Import ZArith NArith String Ascii.
From stdpp Require Import gmap list strings sorting.

Open Scope N_scope.

(** ** Strings *)

Definition pychar := N.
Definition pystr := list N.

(** An ASCII literal as a Python string. *)
Definition str (x : string) : pystr :=
  (fun a => N_of_ascii a) <$> list_ascii_of_string x.

Definition DQ : pychar := 34.   (* the double quote *)
Definition SQ : pychar := 39.   (* the single quote *)
Definition COLON : pychar := 58.

Definition in_range (lo hi c : N) : bool := (lo <=? c) && (c <=? hi).

(** [str.isspace] on one code point; the same set is what [str.strip()]
    removes and what [\s] matches in a [str] pattern. *)
Definition is_space (c : pychar) : bool :=
  in_range 9 13 c || in_range 28 32 c || (c =? 133) || (c =? 160)
  || (c =? 5760) || in_range 8192 8202 c || (c =? 8232) || (c =? 8233)
  || (c =? 8239) || (c =? 8287) || (c =? 12288).

Definition is_char (q : pychar) (c : pychar) : bool := c =? q.

Fixpoint lstrip (p : pychar -> bool) (s : pystr) : pystr :=
  match s with
  | [] => []
  | c :: s' => if p c then lstrip p s' else s
  end.

Definition rstrip (p : pychar -> bool) (s : pystr) : pystr :=
  rev (lstrip p (rev s)).

(** [s.strip()] is [strip is_space s]; [s.strip(q)] for a one-character
    [q] is [strip (is_char q) s]. *)
Definition strip (p : pychar -> bool) (s : pystr) : pystr :=
  rstrip p (lstrip p s).

(** [str.lower], character by character, for the Latin and Cyrillic
    letters: ASCII, Latin-1 and U+0400..U+042F.  Other code points are left
    as they are; none of them has a lower-case form made of the letters of
    the boolean tokens below, the only use of [lower] here. *)
Definition lower_char (c : pychar) : pychar :=
  if in_range 65 90 c then c + 32
  else if in_range 192 222 c && negb (c =? 215) then c + 32
  else if in_range 1040 1071 c then c + 32
  else if in_range 1024 1039 c then c + 80
  else c.

Definition lower (s : pystr) : pystr := lower_char <$> s.

(** [x in s] for a one-character [x]. *)
Definition contains (q : pychar) (s : pystr) : bool := existsb (is_char q) s.

(** [s.split(sep, 1)] when [sep] occurs in [s]: the text before the first
    occurrence and the text after it. *)
Fixpoint split_first (q : pychar) (s : pystr) : option (pystr * pystr) :=
  match s with
  | [] => None
  | c :: s' =>
      if c =? q then Some ([], s')
      else match split_first q s' with
           | Some (a, b) => Some (c :: a, b)
           | None => None
           end
  end.

(** ** Values *)

Inductive value :=
| VInt (n : Z)
| VStr (s : pystr)
| VBool (b : bool).

#[global] Instance value_eq_dec : EqDecision value.
Proof. solve_decision. Defined.

Definition Z_of_bool (b : bool) : Z := if b then 1%Z else 0%Z.

(** Python's [==] on the values a record can hold: [bool] is a subclass of
    [int], so [True == 1]; a string equals only the same string. *)
Definition py_eq (a b : value) : bool :=
  match a, b with
  | VInt x, VInt y => (x =? y)%Z
  | VInt x, VBool y => (x =? Z_of_bool y)%Z
  | VBool x, VInt y => (Z_of_bool x =? y)%Z
  | VBool x, VBool y => Bool.eqb x y
  | VStr x, VStr y => bool_decide (x = y)
  | _, _ => false
  end.

(** [record.get(col) == v]: a missing key gives [None], equal to no
    coerced value. *)
Definition get_eq (o : option value) (v : value) : bool :=
  match o with
  | Some a => py_eq a v
  | None => false
  end.

(** ** Errors

    Every failure of the core is a [ValueError] told apart by its message;
    the constructors follow the messages.  [FieldNamesNotUnique] is the
    [ValueError] with which PrettyTable refuses field names that repeat.
    [Fault] stands for an exception that is not a [ValueError] ([KeyError],
    [TypeError]). *)

Inductive error :=
| TableExists (t : pystr)
| BadColumnFormat (col : pystr)
| InvalidType (ty : pystr)
| NoSuchTable (t : pystr)
| NoSuchColumn (c : pystr)
| WrongArity (expected got : nat)
| CannotConvert (s : pystr) (ty : pystr)
| UnknownType (ty : pystr)
| InColumn (c : pystr) (e : error)
| FieldNamesNotUnique
| Fault.

Definition result (A : Type) : Type := error + A.
Definition Ok {A} (a : A) : result A := inr a.
Definition Err {A} (e : error) : result A := inl e.

(** ** Value coercion: [parse_value] *)

Definition is_digit (c : pychar) : bool := in_range 48 57 c.

(** Decimal digits with single underscores between them. *)
Fixpoint digits_value (acc : Z) (after_digit : bool) (s : pystr) : option Z :=
  match s with
  | [] => if after_digit then Some acc else None
  | c :: s' =>
      if is_digit c then digits_value (10 * acc + Z.of_N (c - 48))%Z true s'
      else if c =? 95 then
        (if after_digit then digits_value acc false s' else None)
      else None
  end.

(** The digit zero of each run of decimal digits of Unicode 14 (category
    [Nd]); the digits one to nine follow it. *)
Definition DECIMAL_ZEROS : list N :=
  [48; 1632; 1776; 1984; 2406; 2534; 2662; 2790; 2918; 3046; 3174; 3302;
   3430; 3558; 3664; 3792; 3872; 4160; 4240; 6112; 6160; 6470; 6608; 6784;
   6800; 6992; 7088; 7232; 7248; 42528; 43216; 43264; 43472; 43504; 43600;
   44016; 65296; 66720; 68912; 69734; 69872; 69942; 70096; 70384; 70736;
   70864; 71248; 71360; 71472; 71904; 72016; 72784; 73040; 73120; 92768;
   92864; 93008; 120782; 120792; 120802; 120812; 120822; 123200; 123632;
   125264; 130032].

(** The value of a decimal digit of any script. *)
Definition decimal_of (c : pychar) : option N :=
  (fun zero => c - zero) <$> List.find (fun zero => in_range zero (zero + 9) c)
                               DECIMAL_ZEROS.

(** The whitespace that [int] skips around the number. *)
Definition is_ascii_space (c : pychar) : bool := in_range 9 13 c || (c =? 32).

(** What [int] makes of a character before it reads the number: a code
    point below 127 stays; above, whitespace becomes a space, a decimal
    digit its ASCII digit and anything else a question mark. *)
Definition to_ascii (c : pychar) : pychar :=
  if c <? 127 then c
  else if is_space c then 32
  else match decimal_of c with
       | Some d => 48 + d
       | None => 63
       end.

(** The most digits that [int] converts ([sys.int_info.default_max_str_digits]). *)
Definition INT_MAX_STR_DIGITS : nat := 4300.

(** [int(s)]: surrounding whitespace, an optional sign, decimal digits with
    single underscores between them, no more digits than the limit.
    [None] is [ValueError]. *)
Definition py_int (s : pystr) : option Z :=
  let t := strip is_ascii_space (to_ascii <$> s) in
  let unsigned :=
    match t with
    | 43 :: r => r
    | 45 :: r => r
    | _ => t
    end in
  if (INT_MAX_STR_DIGITS <? length (List.filter is_digit unsigned))%nat then None
  else
    match t with
    | 43 :: r => digits_value 0 false r
    | 45 :: r => Z.opp <$> digits_value 0 false r
    | _ => digits_value 0 false t
    end.

Definition unquote (value_str : pystr) : pystr :=
  strip (is_char SQ) (strip (is_char DQ) (strip is_space value_str)).

Definition T_INT : pystr := str "int".
Definition T_STR : pystr := str "str".
Definition T_BOOL : pystr := str "bool".

Definition VALID_TYPES : list pystr := [T_INT; T_STR; T_BOOL].

(** да, истина *)
Definition TRUE_TOKENS : list pystr :=
  [str "true"; str "1"; str "yes"; [1076; 1072];
   [1080; 1089; 1090; 1080; 1085; 1072]].

(** нет, ложь *)
Definition FALSE_TOKENS : list pystr :=
  [str "false"; str "0"; str "no"; [1085; 1077; 1090];
   [1083; 1086; 1078; 1100]].

Definition parse_value (value_str expected_type : pystr) : result value :=
  let value_str := unquote value_str in
  if bool_decide (expected_type = T_INT) then
    match py_int value_str with
    | Some n => Ok (VInt n)
    | None => Err (CannotConvert value_str T_INT)
    end
  else if bool_decide (expected_type = T_STR) then
    Ok (VStr value_str)
  else if bool_decide (expected_type = T_BOOL) then
    if bool_decide (lower value_str ∈ TRUE_TOKENS) then Ok (VBool true)
    else if bool_decide (lower value_str ∈ FALSE_TOKENS) then Ok (VBool false)
    else Err (CannotConvert value_str T_BOOL)
  else Err (UnknownType expected_type).

(** ** Schema manager *)

Record column := Column { col_name : pystr; col_type : pystr }.

#[global] Instance column_eq_dec : EqDecision column.
Proof. solve_decision. Defined.

(** The value of [metadata[t]] under the key [columns]: a table definition
    is its list of columns. *)
Abbreviation metadata := (gmap pystr (list column)).

Definition ID : pystr := str "ID".
Definition ID_COLUMN : column := Column ID T_INT.

(** One turn of the loop over [columns] in [create_table]. *)
Definition parse_column (col : pystr) : result column :=
  if negb (contains COLON col) then Err (BadColumnFormat col)
  else
    match split_first COLON col with
    | None => Err Fault   (* not reached: the colon is there *)
    | Some (name, col_type) =>
        let name := strip is_space name in
        let col_type := strip is_space col_type in
        if bool_decide (col_type ∈ VALID_TYPES) then Ok (Column name col_type)
        else Err (InvalidType col_type)
    end.

(** The loop: the first column that fails raises. *)
Fixpoint parse_columns (columns : list pystr) : result (list column) :=
  match columns with
  | [] => Ok []
  | col :: rest =>
      match parse_column col with
      | inl e => inl e
      | inr c =>
          match parse_columns rest with
          | inl e => inl e
          | inr cs => Ok (c :: cs)
          end
      end
  end.

(** ** Records, documents and the persistence layer *)

Abbreviation record := (gmap pystr value).

Inductive event :=
| Load (t : pystr)
| Save (t : pystr) (data : list record).

(** The record documents [data/<table>.json], keyed by table name, and the
    calls of [load_table_data] and [save_table_data] made so far.  A
    document is the list of records that [json.dump] writes and
    [json.load] reads back: integers, strings and booleans come back as
    they were written.

    Two assumptions go with this.  Different table names are different
    files: so it is for the names the data commands accept (word
    characters only), not for a name with a path in it.  The text of the
    records can be written in UTF-8 and the file system takes it:
    [save_table_data] does not fail. *)
Record world := World { tables : gmap pystr (list record); log : list event }.

Definition M (A : Type) : Type := world -> result A * world.

Definition ret {A} (a : A) : M A := fun w => (Ok a, w).
Definition raise {A} (e : error) : M A := fun w => (Err e, w).
Definition bind {A B} (m : M A) (k : A -> M B) : M B :=
  fun w => match m w with
           | (inr a, w') => k a w'
           | (inl e, w') => (inl e, w')
           end.
Definition lift {A} (r : result A) : M A := fun w => (r, w).

Notation "x <- m ;; k" := (bind m (fun x => k))
  (at level 90, m at level 80, right associativity).
Notation "m ;;; k" := (bind m (fun _ => k))
  (at level 90, right associativity).

(** A missing file reads as the empty list. *)
Definition load_table_data (table_name : pystr) : M (list record) :=
  fun w => (Ok (default [] (tables w !! table_name)),
            World (tables w) (log w ++ [Load table_name])).

Definition save_table_data (table_name : pystr) (data : list record) : M unit :=
  fun w => (Ok tt,
            World (<[table_name := data]> (tables w))
                  (log w ++ [Save table_name data])).

Definition create_table (md : metadata) (table_name : pystr)
    (columns : list pystr) : M metadata :=
  match md !! table_name with
  | Some _ => raise (TableExists table_name)
  | None =>
      parsed <- lift (parse_columns columns) ;;
      ret (<[table_name := ID_COLUMN :: parsed]> md)
  end.

Definition drop_table (md : metadata) (table_name : pystr) : M metadata :=
  match md !! table_name with
  | None => raise (NoSuchTable table_name)
  | Some _ => ret (delete table_name md)
  end.

(** ** Record engine *)

(** [record['ID']] read as a number; [None] when the key is missing or the
    value is a string. *)
Definition id_of (r : record) : option Z :=
  match r !! ID with
  | Some (VInt n) => Some n
  | Some (VBool b) => Some (Z_of_bool b)
  | _ => None
  end.

Fixpoint ids_of (data : list record) : option (list Z) :=
  match data with
  | [] => Some []
  | r :: rest =>
      match id_of r, ids_of rest with
      | Some i, Some l => Some (i :: l)
      | _, _ => None
      end
  end.

Definition max_list (i : Z) (l : list Z) : Z := foldl Z.max i l.

(** [max(record['ID'] for record in data) + 1 if data else 1]. *)
Definition next_id (data : list record) : result Z :=
  match data with
  | [] => Ok 1%Z
  | _ :: _ =>
      match ids_of data with
      | Some (i :: l) => Ok (max_list i l + 1)%Z
      | _ => Err Fault
      end
  end.

(** The loop of [insert_into] over the user columns and the values. *)
Fixpoint fill_record (user_columns : list column) (values : list pystr)
    (rec : record) : result record :=
  match user_columns, values with
  | col :: cols, v :: vs =>
      match parse_value v (col_type col) with
      | inl e => Err (InColumn (col_name col) e)
      | inr x => fill_record cols vs (<[col_name col := x]> rec)
      end
  | _, _ => Ok rec
  end.

Definition user_columns_of (columns : list column) : list column :=
  filter (fun col => col_name col ≠ ID) columns.

Definition insert_into (md : metadata) (table_name : pystr)
    (values : list pystr) : M Z :=
  match md !! table_name with
  | None => raise (NoSuchTable table_name)
  | Some columns =>
      let user_columns := user_columns_of columns in
      if negb (length values =? length user_columns)%nat then
        raise (WrongArity (length user_columns) (length values))
      else
        data <- load_table_data table_name ;;
        new_id <- lift (next_id data) ;;
        rec <- lift (fill_record user_columns values {[ID := VInt new_id]}) ;;
        save_table_data table_name (data ++ [rec]) ;;;
        ret new_id
  end.

(** A Python value used as a condition: [None] and [''] are false. *)
Definition truthy (o : option pystr) : bool :=
  match o with
  | Some (_ :: _) => true
  | _ => false
  end.

(** The search loop with [break]: the first column of that name. *)
Fixpoint type_of_first (columns : list column) (name : pystr) : option pystr :=
  match columns with
  | [] => None
  | col :: rest =>
      if bool_decide (col_name col = name) then Some (col_type col)
      else type_of_first rest name
  end.

(** The search loop without [break]: the last column of that name. *)
Definition type_of_last (columns : list column) (name : pystr) : option pystr :=
  foldl (fun acc col =>
           if bool_decide (col_name col = name) then Some (col_type col)
           else acc) None columns.

Definition matches (where_column : pystr) (parsed : value) (r : record) : bool :=
  get_eq (r !! where_column) parsed.

(** The display of [select_from]: for no record the message that no
    records were found; otherwise a PrettyTable with the column names as
    field names and one row for each record, in order.  PrettyTable
    refuses field names that are not distinct. *)
Definition shown (columns : list column) (data : list record)
    : result (list record) :=
  match data with
  | [] => Ok []
  | _ :: _ =>
      if bool_decide (NoDup (col_name <$> columns)) then Ok data
      else Err FieldNamesNotUnique
  end.

(** The records [select_from] displays. *)
Definition select_from (md : metadata) (table_name : pystr)
    (where_column where_value : option pystr) : M (list record) :=
  match md !! table_name with
  | None => raise (NoSuchTable table_name)
  | Some columns =>
      data <- load_table_data table_name ;;
      data <- match where_column, where_value with
              | Some wc, Some wv =>
                  if truthy where_column && truthy where_value then
                    match type_of_first columns wc with
                    | None => raise (NoSuchColumn wc)
                    | Some col_type =>
                        parsed_value <- lift (parse_value wv col_type) ;;
                        ret (filter (fun r => matches wc parsed_value r) data)
                    end
                  else ret data
              | _, _ => ret data
              end ;;
      lift (shown columns data)
  end.

(** The loop of [update_table]: the updated records and [updated_ids]. *)
Fixpoint update_loop (where_column : pystr) (parsed_where : value)
    (set_column : pystr) (parsed_set : value) (data : list record)
    : result (list record * list value) :=
  match data with
  | [] => Ok ([], [])
  | r :: rest =>
      if matches where_column parsed_where r then
        let r' := <[set_column := parsed_set]> r in
        match r' !! ID with
        | None => Err Fault
        | Some i =>
            match update_loop where_column parsed_where set_column parsed_set rest with
            | inl e => inl e
            | inr (d, ids) => Ok (r' :: d, i :: ids)
            end
        end
      else
        match update_loop where_column parsed_where set_column parsed_set rest with
        | inl e => inl e
        | inr (d, ids) => Ok (r :: d, ids)
        end
  end.

Definition update_table (md : metadata) (table_name : pystr)
    (set_column set_value where_column where_value : pystr) : M (list value) :=
  match md !! table_name with
  | None => raise (NoSuchTable table_name)
  | Some columns =>
      data <- load_table_data table_name ;;
      match type_of_last columns set_column with
      | None => raise (NoSuchColumn set_column)
      | Some set_col_type =>
          match type_of_last columns where_column with
          | None => raise (NoSuchColumn where_column)
          | Some where_col_type =>
              parsed_set <- lift (parse_value set_value set_col_type) ;;
              parsed_where <- lift (parse_value where_value where_col_type) ;;
              upd <- lift (update_loop where_column parsed_where
                                       set_column parsed_set data) ;;
              match upd with
              | (_, []) => ret []
              | (data', updated_ids) =>
                  save_table_data table_name data' ;;;
                  ret updated_ids
              end
          end
      end
  end.

(** The loop of [delete_from]: [new_data] and [deleted_ids]. *)
Fixpoint delete_loop (where_column : pystr) (parsed_where : value)
    (data : list record) : result (list record * list value) :=
  match data with
  | [] => Ok ([], [])
  | r :: rest =>
      if matches where_column parsed_where r then
        match r !! ID with
        | None => Err Fault
        | Some i =>
            match delete_loop where_column parsed_where rest with
            | inl e => inl e
            | inr (d, ids) => Ok (d, i :: ids)
            end
        end
      else
        match delete_loop where_column parsed_where rest with
        | inl e => inl e
        | inr (d, ids) => Ok (r :: d, ids)
        end
  end.

Definition delete_from (md : metadata) (table_name : pystr)
    (where_column where_value : pystr) : M (list value) :=
  match md !! table_name with
  | None => raise (NoSuchTable table_name)
  | Some columns =>
      data <- load_table_data table_name ;;
      match type_of_first columns where_column with
      | None => raise (NoSuchColumn where_column)
      | Some where_col_type =>
          parsed_where <- lift (parse_value where_value where_col_type) ;;
          del <- lift (delete_loop where_column parsed_where data) ;;
          match del with
          | (_, []) => ret []
          | (new_data, deleted_ids) =>
              save_table_data table_name new_data ;;;
              ret deleted_ids
          end
      end
  end.

(** ** Command parser: [parse_command_parts]

    [re.findall] with the pattern of three alternatives (a run of
    characters other than whitespace and the two quotes; a double-quoted
    span; a single-quoted span) scans the command from left to right.  At
    a character that is neither whitespace nor a quote the first
    alternative takes the longest run of such characters.  At a quote the
    alternative for that quote matches up to the next quote of the same
    kind, when there is one.  Where nothing matches, the scan moves on by
    one character. *)

Definition is_plain (c : pychar) : bool :=
  negb (is_space c) && negb (is_char DQ c) && negb (is_char SQ c).

Definition is_quote (c : pychar) : bool := is_char DQ c || is_char SQ c.

(** The longest prefix of characters satisfying [p], and the rest. *)
Fixpoint span (p : pychar -> bool) (s : pystr) : pystr * pystr :=
  match s with
  | [] => ([], [])
  | c :: s' =>
      if p c then let (a, b) := span p s' in (c :: a, b) else ([], s)
  end.

Fixpoint findall_fuel (fuel : nat) (s : pystr) : list pystr :=
  match fuel with
  | O => []
  | S fuel' =>
      match s with
      | [] => []
      | c :: rest =>
          if is_plain c then
            let (run, rest') := span is_plain rest in
            (c :: run) :: findall_fuel fuel' rest'
          else if is_quote c then
            match split_first c rest with
            | Some (inner, rest') =>
                (c :: inner ++ [c]) :: findall_fuel fuel' rest'
            | None => findall_fuel fuel' rest
            end
          else findall_fuel fuel' rest
      end
  end.

(** Every match consumes at least one character, so the length of the
    command is fuel enough (lemma [findall_fuel_enough]). *)
Definition findall (command : pystr) : list pystr :=
  findall_fuel (length command) command.

Definition strip_quotes (p : pystr) : pystr :=
  strip (is_char SQ) (strip (is_char DQ) p).

Definition parse_command_parts (command : pystr) : list pystr :=
  strip_quotes <$> findall command.

(** ** Descriptions and command values

    [info_table] of [core.py] and the part of [handle_insert] of
    [engine.py] that follows the match of the pattern. *)

(** [sep.join(parts)]. *)
Fixpoint join (sep : pystr) (parts : list pystr) : pystr :=
  match parts with
  | [] => []
  | x :: rest =>
      match rest with
      | [] => x
      | _ :: _ => x ++ sep ++ join sep rest
      end
  end.

(** The text [name:type] that [info_table] shows for a column. *)
Definition render_column (col : column) : pystr :=
  col_name col ++ [COLON] ++ col_type col.

(** The two lines [info_table] prints, without their fixed labels: the
    name of the table and the text of its columns. *)
Definition info_table (md : metadata) (table_name : pystr) : M (pystr * pystr) :=
  match md !! table_name with
  | None => raise (NoSuchTable table_name)
  | Some columns =>
      let col_str := join (str ", ") (render_column <$> columns) in
      ret (table_name, col_str)
  end.

Definition COMMA : pychar := 44.

(** [s.split(q)] for a one-character separator: the pieces between the
    occurrences of [q], empty pieces included; the empty string gives one
    empty piece. *)
Fixpoint split_on (q : pychar) (s : pystr) : list pystr :=
  match s with
  | [] => [[]]
  | c :: s' =>
      if c =? q then [] :: split_on q s'
      else
        match split_on q s' with
        | piece :: pieces => (c :: piece) :: pieces
        | [] => [[c]]   (* not reached: there is always a piece *)
        end
  end.

(** [handle_insert] from the match on: [table_name] and [values_str] are
    the two groups of the pattern, the name after [into] and the text
    between the parentheses. *)
Definition handle_insert_matched (md : metadata) (table_name values_str : pystr)
    : M Z :=
  let values := strip is_space <$> split_on COMMA values_str in
  insert_into md table_name values.

(** ** Vocabulary of the properties *)

(** Every character of [s] is one that [strip p] removes. *)
Definition all_of (p : pychar -> bool) (s : pystr) : Prop :=
  Forall (fun c => p c = true) s.

(** [s] does not begin with a character that [strip p] removes. *)
Definition clean_left (p : pychar -> bool) (s : pystr) : Prop :=
  match s with
  | [] => True
  | c :: _ => p c = false
  end.

Definition clean_right (p : pychar -> bool) (s : pystr) : Prop :=
  clean_left p (rev s).

(** A well-formed column spec [name:type], with a valid type, and the
    column it stands for. *)
Definition spec_column (spec : pystr) (c : column) : Prop :=
  exists name ty,
    spec = name ++ COLON :: ty /\ (COLON ∉ name)
    /\ strip is_space ty ∈ VALID_TYPES
    /\ c = Column (strip is_space name) (strip is_space ty).

(** The column names of a table definition, in order. *)
Definition names (columns : list column) : list pystr := col_name <$> columns.

(** The document of a table as [load_table_data] reads it. *)
Definition stored (w : world) (t : pystr) : list record :=
  default [] (tables w !! t).

(** The world after a load of [t] and nothing else. *)
Definition loaded (w : world) (t : pystr) : world :=
  World (tables w) (log w ++ [Load t]).

(** The world after a save of [data] as the document of [t]. *)
Definition saved (w : world) (t : pystr) (data : list record) : world :=
  World (<[t := data]> (tables w)) (log w ++ [Save t data]).

Definition has_ID (r : record) : Prop := is_Some (r !! ID).

(** The ID after the IDs [ids] of a document. *)
Definition next (ids : list Z) : Z :=
  match ids with
  | [] => 1%Z
  | i :: l => (max_list i l + 1)%Z
  end.

(** The value [v] coerces to the type of the column [col]. *)
Definition coercible (col : column) (v : pystr) : Prop :=
  exists x, parse_value v (col_type col) = Ok x.

(** A sequence of inserts and deletes on the table [t], from the world [w]:
    the IDs that the inserts assigned, oldest first, and the world reached.
    A delete must leave in the document a record whose ID is at least every
    ID assigned so far. *)
Inductive run (md : metadata) (t : pystr) (w : world)
    : list Z -> world -> Prop :=
| run_start : run md t w [] w
| run_insert assigned w1 values new_id w2 :
    run md t w assigned w1 ->
    insert_into md t values w1 = (Ok new_id, w2) ->
    run md t w (assigned ++ [new_id]) w2
| run_delete assigned w1 wc wv deleted w2 r i :
    run md t w assigned w1 ->
    delete_from md t wc wv w1 = (Ok deleted, w2) ->
    r ∈ stored w2 t -> id_of r = Some i ->
    Forall (fun a => (a <= i)%Z) assigned ->
    run md t w assigned w2.

(** ** The boolean tokens, in the words of the specification

    These definitions do not come from the code: they say what the
    specification means by a token that matches case-insensitively, to
    compare [parse_value] with. *)

(** The affirmative tokens: true, 1, yes and the Russian да, истина. *)
Definition AFFIRMATIVE : list pystr :=
  [[116; 114; 117; 101]; [49]; [121; 101; 115]; [1076; 1072];
   [1080; 1089; 1090; 1080; 1085; 1072]].

(** The negative tokens: false, 0, no and the Russian нет, ложь. *)
Definition NEGATIVE : list pystr :=
  [[102; 97; 108; 115; 101]; [48]; [110; 111]; [1085; 1077; 1090];
   [1083; 1086; 1078; 1100]].

(** The upper-case form of a lower-case Latin or Russian letter. *)
Definition upper_of (c : N) : option N :=
  if in_range 97 122 c || in_range 1072 1103 c then Some (c - 32) else None.

(** The same character, or the two cases of one letter. *)
Definition same_letter (x y : N) : Prop :=
  x = y \/ upper_of y = Some x \/ upper_of x = Some y.

Definition matches_ignoring_case (a b : pystr) : Prop :=
  Forall2 same_letter a b.

(** A lower-case letter or a digit: the characters of the tokens. *)
Definition token_char (y : N) : bool :=
  in_range 97 122 y || in_range 1072 1103 y || in_range 48 57 y.

(** [u] is the input [s] trimmed and unquoted: [s] is [u] inside single
    quotes, inside double quotes, inside whitespace, each layer as long as
    it can be. *)
Definition unquoted_form (s u : pystr) : Prop :=
  exists w1 d1 q1 q2 d2 w2,
    s = w1 ++ (d1 ++ (q1 ++ u ++ q2) ++ d2) ++ w2
    /\ all_of is_space w1 /\ all_of is_space w2
    /\ all_of (is_char DQ) d1 /\ all_of (is_char DQ) d2
    /\ all_of (is_char SQ) q1 /\ all_of (is_char SQ) q2
    /\ clean_left is_space (d1 ++ (q1 ++ u ++ q2) ++ d2)
    /\ clean_right is_space (d1 ++ (q1 ++ u ++ q2) ++ d2)
    /\ clean_left (is_char DQ) (q1 ++ u ++ q2)
    /\ clean_right (is_char DQ) (q1 ++ u ++ q2)
    /\ clean_left (is_char SQ) u
    /\ clean_right (is_char SQ) u.

(** ** A sample table

    The table [users] of the end-to-end scenario, three records and the
    values of one more, used to run the operations on concrete inputs. *)

Definition users : pystr := str "users".
Definition NAME : pystr := str "name".
Definition AGE : pystr := str "age".
Definition ACTIVE : pystr := str "active".

Definition users_specs : list pystr :=
  [str "name:str"; str "age:int"; str "active:bool"].

Definition users_columns : list column :=
  [Column NAME T_STR; Column AGE T_INT; Column ACTIVE T_BOOL].

Definition users_md : metadata := <[users := ID_COLUMN :: users_columns]> ∅.

Definition person (i : Z) (name : pystr) (age : Z) (active : bool) : record :=
  <[ACTIVE := VBool active]>
    (<[AGE := VInt age]> (<[NAME := VStr name]> {[ID := VInt i]})).

Definition ann : record := person 1 (str "Ann") 30 true.
Definition bob : record := person 2 (str "Bob") 41 false.
(** A record with the empty name. *)
Definition eve : record := person 3 [] 30 true.

(** The world whose only document is [data], for the table [users]. *)
Definition disk (data : list record) : world := World {[users := data]} [].

Definition row : list pystr := [str "Ann"; str "30"; str "true"].

(** The table that the spec [ID:int] gives: two columns named [ID]; and a
    document with the record that an insert without values gives. *)
Definition twins : pystr := str "twins".
Definition twins_md : metadata := <[twins := [ID_COLUMN; ID_COLUMN]]> ∅.
Definition twins_disk : world := World {[twins := [{[ID := VInt 1]}]]} [].

Definition after_insert (w : world) : world :=
  snd (insert_into users_md users row w).

Definition after_delete (i : pystr) (w : world) : world :=
  snd (delete_from users_md users ID i w).

(** ** Vocabulary of the further properties *)

(** The value [x] has the shape of the column type [ty]. *)
Definition has_type (x : value) (ty : pystr) : Prop :=
  match x with
  | VInt _ => ty = T_INT
  | VStr _ => ty = T_STR
  | VBool _ => ty = T_BOOL
  end.

(** Whitespace or a quote: the characters that [parse_value] removes from
    the two ends of a value. *)
Definition is_wrap (c : pychar) : bool := is_space c || is_quote c.

(** A value with none of these characters at either end. *)
Definition bare (s : pystr) : Prop :=
  clean_left is_wrap s /\ clean_right is_wrap s.

(** The document after an update: the matching records get the new value
    under the set-column, the others stay as they are. *)
Definition updated (wc : pystr) (pwv : value) (sc : pystr) (psv : value)
    (data : list record) : list record :=
  (fun r => if matches wc pwv r then <[sc := psv]> r else r) <$> data.

(** The word is not empty and has neither whitespace nor quotes. *)
Definition plain_word (word : pystr) : Prop :=
  word <> [] /\ all_of is_plain word.

(** The number of occurrences of [q] in [s]. *)
Definition occurrences (q : N) (s : list N) : nat :=
  length (filter (fun c : N => c = q) s).

(** * Properties *)

(** A closed decidable fact is settled by evaluating its decision. *)
Ltac by_evaluation := apply (bool_decide_unpack _); vm_compute; reflexivity.

(** ** Coercion on examples *)

Example parse_value_42 : parse_value (str "42") T_INT = Ok (VInt 42).
Proof. vm_compute. reflexivity. Qed.

Example parse_value_quoted_42 :
  parse_value ([DQ] ++ str "42" ++ [DQ]) T_INT = Ok (VInt 42).
Proof. vm_compute. reflexivity. Qed.

Example parse_value_YES : parse_value (str " YES ") T_BOOL = Ok (VBool true).
Proof. vm_compute. reflexivity. Qed.

(** ** Stripping *)

Section Strip.
Variable p : pychar -> bool.

Lemma lstrip_split (s : pystr) :
  exists a, s = a ++ lstrip p s /\ all_of p a.
Proof.
  induction s as [|c s [a [Hs Ha]]]; simpl.
  - exists []. split; [reflexivity | constructor].
  - destruct (p c) eqn:Hc.
    + exists (c :: a). split; [simpl; congruence | constructor; assumption].
    + exists []. split; [reflexivity | constructor].
Qed.

Lemma lstrip_clean_left (s : pystr) : clean_left p (lstrip p s).
Proof.
  induction s as [|c s IH]; simpl; [exact I |].
  destruct (p c) eqn:Hc; [assumption | simpl; assumption].
Qed.

Lemma lstrip_all (a s : pystr) : all_of p a -> lstrip p (a ++ s) = lstrip p s.
Proof.
  induction 1 as [|c a Hc _ IH]; simpl; [reflexivity |].
  rewrite Hc. assumption.
Qed.

Lemma lstrip_id (s : pystr) : clean_left p s -> lstrip p s = s.
Proof. destruct s as [|c s]; simpl; [reflexivity |]. intros ->. reflexivity. Qed.

Lemma lstrip_all_nil (a : pystr) : all_of p a -> lstrip p a = [].
Proof.
  intros Ha. rewrite <- (app_nil_r a). rewrite lstrip_all by assumption.
  reflexivity.
Qed.

Lemma all_of_rev (a : pystr) : all_of p a -> all_of p (rev a).
Proof.
  unfold all_of. rewrite !Forall_forall. intros H c Hc.
  apply H. rewrite list_elem_of_In in *. apply in_rev. assumption.
Qed.

Lemma clean_left_app (s b : pystr) :
  s <> [] -> clean_left p s -> clean_left p (s ++ b).
Proof. destruct s; [congruence | simpl; auto]. Qed.

Lemma clean_left_prefix (s b : pystr) : clean_left p (s ++ b) -> s <> [] -> clean_left p s.
Proof. destruct s; [congruence | simpl; auto]. Qed.

(** What [strip] leaves: the input is the result between two runs of
    removed characters, and the result begins and ends with a character
    that is not removed. *)
Lemma strip_spec (s : pystr) :
  exists a b, s = a ++ strip p s ++ b /\ all_of p a /\ all_of p b
              /\ clean_left p (strip p s) /\ clean_right p (strip p s).
Proof.
  unfold strip, rstrip.
  destruct (lstrip_split s) as [a [Hs Ha]].
  destruct (lstrip_split (rev (lstrip p s))) as [b [Hr Hb]].
  set (l := lstrip p s) in *.
  set (r := lstrip p (rev l)) in *.
  assert (Hl : l = rev r ++ rev b).
  { rewrite <- rev_app_distr, <- Hr, rev_involutive. reflexivity. }
  exists a, (rev b). repeat split.
  - rewrite <- Hl. exact Hs.
  - exact Ha.
  - apply all_of_rev. exact Hb.
  - destruct (rev r) as [|c t] eqn:Hrr; [exact I |].
    apply clean_left_prefix with (b := rev b); [| discriminate].
    rewrite <- Hl. apply lstrip_clean_left.
  - unfold clean_right. rewrite rev_involutive. apply lstrip_clean_left.
Qed.

(** The converse: such a decomposition determines the result. *)
Lemma strip_between (a s b : pystr) :
  all_of p a -> all_of p b -> clean_left p s -> clean_right p s ->
  strip p (a ++ s ++ b) = s.
Proof.
  intros Ha Hb Hl Hr. unfold strip, rstrip.
  rewrite lstrip_all by assumption.
  destruct s as [|c s].
  - simpl. rewrite (lstrip_all_nil b) by assumption. reflexivity.
  - rewrite (lstrip_id ((c :: s) ++ b))
      by (apply clean_left_app; [discriminate | assumption]).
    rewrite rev_app_distr, lstrip_all by (apply all_of_rev; assumption).
    rewrite (lstrip_id (rev (c :: s))) by assumption. apply rev_involutive.
Qed.

Lemma strip_id (s : pystr) : clean_left p s -> clean_right p s -> strip p s = s.
Proof.
  intros Hl Hr.
  rewrite <- (strip_between [] s []) at 2; try assumption; try constructor.
  simpl. rewrite app_nil_r. reflexivity.
Qed.
End Strip.

(** ** Value coercion *)

Lemma true_false_tokens_disjoint (x : pystr) :
  x ∈ FALSE_TOKENS -> x ∉ TRUE_TOKENS.
Proof.
  unfold FALSE_TOKENS. rewrite !elem_of_cons, elem_of_nil.
  intros [-> | [-> | [-> | [-> | [-> | []]]]]];
    by_evaluation.
Qed.

(** C1, as the code has it: [parse_value] removes the surrounding
    whitespace, then every leading and trailing double quote, then every
    leading and trailing single quote, whether or not they pair up, and
    keeps what is between them as it is.  The input is the result wrapped in
    three layers, each one as long as it can be; every column type coerces
    that result. *)
Theorem parse_value_strips_all_quotes (s : pystr) :
  (exists w1 d1 q1 q2 d2 w2,
      s = w1 ++ (d1 ++ (q1 ++ unquote s ++ q2) ++ d2) ++ w2
      /\ all_of is_space w1 /\ all_of is_space w2
      /\ all_of (is_char DQ) d1 /\ all_of (is_char DQ) d2
      /\ all_of (is_char SQ) q1 /\ all_of (is_char SQ) q2
      /\ clean_left is_space (d1 ++ (q1 ++ unquote s ++ q2) ++ d2)
      /\ clean_right is_space (d1 ++ (q1 ++ unquote s ++ q2) ++ d2)
      /\ clean_left (is_char DQ) (q1 ++ unquote s ++ q2)
      /\ clean_right (is_char DQ) (q1 ++ unquote s ++ q2)
      /\ clean_left (is_char SQ) (unquote s)
      /\ clean_right (is_char SQ) (unquote s))
  /\ parse_value s T_STR = Ok (VStr (unquote s))
  /\ parse_value s T_INT =
       match py_int (unquote s) with
       | Some n => Ok (VInt n)
       | None => Err (CannotConvert (unquote s) T_INT)
       end
  /\ parse_value s T_BOOL =
       if bool_decide (lower (unquote s) ∈ TRUE_TOKENS) then Ok (VBool true)
       else if bool_decide (lower (unquote s) ∈ FALSE_TOKENS) then Ok (VBool false)
       else Err (CannotConvert (unquote s) T_BOOL).
Proof.
  split; [| repeat split].
  unfold unquote.
  destruct (strip_spec is_space s) as (w1 & w2 & Hs & Hw1 & Hw2 & Hl1 & Hr1).
  set (s1 := strip is_space s) in *.
  destruct (strip_spec (is_char DQ) s1) as (d1 & d2 & Hs1 & Hd1 & Hd2 & Hl2 & Hr2).
  set (s2 := strip (is_char DQ) s1) in *.
  destruct (strip_spec (is_char SQ) s2) as (q1 & q2 & Hs2 & Hq1 & Hq2 & Hl3 & Hr3).
  exists w1, d1, q1, q2, d2, w2.
  rewrite <- Hs2, <- Hs1, <- Hs. repeat split; assumption.
Qed.

(** The example of the claim: the digit 4 between two double quotes on
    each side coerces to the digit alone, not to the digit between one
    double quote on each side. *)
Lemma parse_value_two_layers :
  parse_value [DQ; DQ; 52; DQ; DQ] T_STR = Ok (VStr [52])
  /\ parse_value [DQ; DQ; 52; DQ; DQ] T_STR <> Ok (VStr [DQ; 52; DQ]).
Proof. split; [vm_compute; reflexivity | vm_compute; discriminate]. Qed.

(** Quotes need not pair up either. *)
Example parse_value_unpaired_quote :
  parse_value ([DQ] ++ str "abc'") T_STR = Ok (VStr (str "abc")).
Proof. vm_compute. reflexivity. Qed.

(** The boolean coercion looks at the lower-cased unquoted text only. *)
Lemma parse_value_bool_tokens (s : pystr) :
  (parse_value s T_BOOL = Ok (VBool true) <-> lower (unquote s) ∈ TRUE_TOKENS)
  /\ (parse_value s T_BOOL = Ok (VBool false)
      <-> lower (unquote s) ∈ FALSE_TOKENS)
  /\ (parse_value s T_BOOL = Err (CannotConvert (unquote s) T_BOOL)
      <-> (lower (unquote s) ∉ TRUE_TOKENS)
          /\ (lower (unquote s) ∉ FALSE_TOKENS)).
Proof.
  unfold parse_value.
  replace (bool_decide (T_BOOL = T_INT)) with false by (vm_compute; reflexivity).
  replace (bool_decide (T_BOOL = T_STR)) with false by (vm_compute; reflexivity).
  replace (bool_decide (T_BOOL = T_BOOL)) with true by (vm_compute; reflexivity).
  cbv iota.
  pose proof (true_false_tokens_disjoint (lower (unquote s))) as Hdis.
  repeat case_bool_decide; unfold Ok, Err; repeat split; intros;
    try discriminate; try tauto; try congruence.
Qed.

Example parse_value_TRUE : parse_value (str "TRUE") T_BOOL = Ok (VBool true).
Proof. vm_compute. reflexivity. Qed.

(** ДА *)
Example parse_value_DA : parse_value [1044; 1040] T_BOOL = Ok (VBool true).
Proof. vm_compute. reflexivity. Qed.

(** Нет, in single quotes *)
Example parse_value_Net :
  parse_value [SQ; 1053; 1077; 1090; SQ] T_BOOL = Ok (VBool false).
Proof. vm_compute. reflexivity. Qed.

Example parse_value_maybe :
  parse_value (str "maybe") T_BOOL = Err (CannotConvert (str "maybe") T_BOOL).
Proof. vm_compute. reflexivity. Qed.

Lemma in_range_iff (lo hi c : N) : in_range lo hi c = true <-> lo <= c <= hi.
Proof. unfold in_range. rewrite andb_true_iff, !N.leb_le. tauto. Qed.

Lemma in_range_not (lo hi c : N) :
  in_range lo hi c = false <-> ~ (lo <= c <= hi).
Proof.
  rewrite <- in_range_iff. destruct (in_range lo hi c); split; congruence.
Qed.

(** The branches of [lower_char]. *)
Lemma lower_char_cases (x : N) :
  (65 <= x <= 90 /\ lower_char x = x + 32)
  \/ (192 <= x <= 222 /\ lower_char x = x + 32)
  \/ (1040 <= x <= 1071 /\ lower_char x = x + 32)
  \/ (1024 <= x <= 1039 /\ lower_char x = x + 80)
  \/ (~ (65 <= x <= 90) /\ ~ (1040 <= x <= 1071) /\ ~ (1024 <= x <= 1039)
      /\ lower_char x = x).
Proof.
  unfold lower_char.
  destruct (in_range 65 90 x) eqn:E1.
  { apply in_range_iff in E1. left. split; [assumption | reflexivity]. }
  apply in_range_not in E1.
  destruct (in_range 192 222 x && negb (x =? 215)) eqn:E2.
  { apply andb_true_iff in E2 as [E2 _]. apply in_range_iff in E2.
    right. left. split; [assumption | reflexivity]. }
  destruct (in_range 1040 1071 x) eqn:E3.
  { apply in_range_iff in E3. right. right. left.
    split; [assumption | reflexivity]. }
  apply in_range_not in E3.
  destruct (in_range 1024 1039 x) eqn:E4.
  { apply in_range_iff in E4. right. right. right. left.
    split; [assumption | reflexivity]. }
  apply in_range_not in E4. right. right. right. right. tauto.
Qed.

Lemma upper_of_cases (y : N) :
  ((97 <= y <= 122 \/ 1072 <= y <= 1103) /\ upper_of y = Some (y - 32))
  \/ (~ (97 <= y <= 122) /\ ~ (1072 <= y <= 1103) /\ upper_of y = None).
Proof.
  unfold upper_of.
  destruct (in_range 97 122 y) eqn:E1.
  { apply in_range_iff in E1. left. split; [left; assumption | reflexivity]. }
  apply in_range_not in E1.
  destruct (in_range 1072 1103 y) eqn:E2.
  { apply in_range_iff in E2. left. split; [right; assumption | reflexivity]. }
  apply in_range_not in E2. right. tauto.
Qed.

Lemma token_char_cases (y : N) :
  token_char y = true -> 97 <= y <= 122 \/ 1072 <= y <= 1103 \/ 48 <= y <= 57.
Proof. unfold token_char. rewrite !orb_true_iff, !in_range_iff. tauto. Qed.

(** [lower_char] takes to a character of a token that character and the
    upper-case form of it, and nothing else. *)
Lemma lower_char_token (x y : N) :
  token_char y = true -> (lower_char x = y <-> same_letter x y).
Proof.
  intros Hy. apply token_char_cases in Hy. unfold same_letter.
  destruct (upper_of_cases y) as [[Hyr ->] | (Hy1 & Hy2 & ->)];
    destruct (upper_of_cases x) as [[Hxr ->] | (Hx1 & Hx2 & ->)];
    destruct (lower_char_cases x)
      as [[Hx ->] | [[Hx ->] | [[Hx ->] | [[Hx ->] | (H1 & H3 & H4 & ->)]]]];
    (split; [intros Hl | intros [He | [He | He]]]);
    try discriminate He; try (injection He as He); try lia;
    try (left; lia); try (right; left; f_equal; lia).
Qed.

Lemma lower_token (u tok : pystr) :
  Forall (fun y => token_char y = true) tok ->
  (lower u = tok <-> matches_ignoring_case u tok).
Proof.
  unfold lower, matches_ignoring_case. intros Htok. revert u.
  induction Htok as [|y tok Hy _ IH]; intros u.
  - destruct u as [|x u]; simpl.
    + split; [constructor | reflexivity].
    + split; [discriminate | intros H; inversion H].
  - destruct u as [|x u]; simpl.
    + split; [discriminate | intros H; inversion H].
    + split.
      * intros [= Hx Hu]. constructor.
        -- apply lower_char_token; assumption.
        -- apply IH. assumption.
      * intros H. apply Forall2_cons_1 in H as [Hx Hu].
        apply lower_char_token in Hx; [| assumption].
        apply IH in Hu. simpl in Hu. rewrite Hx. f_equal. exact Hu.
Qed.

Lemma tokens_token_chars :
  Forall (Forall (fun y => token_char y = true)) (AFFIRMATIVE ++ NEGATIVE).
Proof. repeat constructor. Qed.

Lemma lower_in_tokens (u : pystr) (tokens : list pystr) :
  Forall (Forall (fun y => token_char y = true)) tokens ->
  (lower u ∈ tokens
   <-> exists tok, tok ∈ tokens /\ matches_ignoring_case u tok).
Proof.
  intros Hchars. rewrite Forall_forall in Hchars. split.
  - intros Hin. exists (lower u). split; [assumption |].
    apply lower_token; [apply Hchars; assumption | reflexivity].
  - intros (tok & Hin & Hmatch).
    apply lower_token in Hmatch; [| apply Hchars; assumption].
    rewrite Hmatch. assumption.
Qed.

(** Every input has its trimmed, unquoted form, which [unquote] computes. *)
Lemma unquoted_form_unquote (s : pystr) : unquoted_form s (unquote s).
Proof.
  unfold unquote.
  destruct (strip_spec is_space s) as (w1 & w2 & Hs & Hw1 & Hw2 & Hl1 & Hr1).
  set (s1 := strip is_space s) in *.
  destruct (strip_spec (is_char DQ) s1) as (d1 & d2 & Hs1 & Hd1 & Hd2 & Hl2 & Hr2).
  set (s2 := strip (is_char DQ) s1) in *.
  destruct (strip_spec (is_char SQ) s2) as (q1 & q2 & Hs2 & Hq1 & Hq2 & Hl3 & Hr3).
  exists w1, d1, q1, q2, d2, w2.
  rewrite <- Hs2, <- Hs1, <- Hs. repeat split; assumption.
Qed.

(** There is no other. *)
Lemma unquoted_form_unique (s u : pystr) : unquoted_form s u -> unquote s = u.
Proof.
  intros (w1 & d1 & q1 & q2 & d2 & w2 & -> & Hw1 & Hw2 & Hd1 & Hd2 & Hq1 & Hq2
          & Hl1 & Hr1 & Hl2 & Hr2 & Hl3 & Hr3).
  unfold unquote.
  rewrite (strip_between is_space) by assumption.
  rewrite (strip_between (is_char DQ)) by assumption.
  apply strip_between; assumption.
Qed.

(** C6: let [u] be the input trimmed and unquoted.  The boolean coercion
    gives true exactly when [u] is, up to the case of its letters, one of
    true, 1, yes, да, истина; false exactly when it is one of false, 0, no,
    нет, ложь; and fails with the conversion error exactly when it is none
    of these. *)
Theorem parse_value_bool_ignoring_case (s : pystr) :
  (exists u, unquoted_form s u)
  /\ forall u, unquoted_form s u ->
       (parse_value s T_BOOL = Ok (VBool true)
        <-> exists tok, tok ∈ AFFIRMATIVE /\ matches_ignoring_case u tok)
       /\ (parse_value s T_BOOL = Ok (VBool false)
           <-> exists tok, tok ∈ NEGATIVE /\ matches_ignoring_case u tok)
       /\ (parse_value s T_BOOL = Err (CannotConvert u T_BOOL)
           <-> ~ exists tok, tok ∈ AFFIRMATIVE ++ NEGATIVE
                            /\ matches_ignoring_case u tok).
Proof.
  split; [exists (unquote s); apply unquoted_form_unquote |].
  intros u Hu. apply unquoted_form_unique in Hu. subst u.
  destruct (parse_value_bool_tokens s) as (Htrue & Hfalse & Herr).
  pose proof tokens_token_chars as Hchars.
  apply Forall_app in Hchars as [Haff Hneg].
  change TRUE_TOKENS with AFFIRMATIVE in *.
  change FALSE_TOKENS with NEGATIVE in *.
  rewrite (lower_in_tokens _ AFFIRMATIVE Haff) in Htrue, Herr.
  rewrite (lower_in_tokens _ NEGATIVE Hneg) in Hfalse, Herr.
  split; [exact Htrue |]. split; [exact Hfalse |].
  rewrite Herr. split.
  - intros [Hna Hnn] (tok & Hin & Hmatch).
    apply elem_of_app in Hin as [Hin | Hin]; [apply Hna | apply Hnn];
      exists tok; split; assumption.
  - intros Hnone. split; intros (tok & Hin & Hmatch); apply Hnone;
      exists tok; (split; [| assumption]); apply elem_of_app;
      [left | right]; assumption.
Qed.

(** [YeS] in single quotes between spaces is true. *)
Lemma parse_value_bool_ignoring_case_witness :
  parse_value ([32; SQ] ++ str "YeS" ++ [SQ; 32]) T_BOOL = Ok (VBool true).
Proof.
  destruct (parse_value_bool_ignoring_case ([32; SQ] ++ str "YeS" ++ [SQ; 32]))
    as [_ Hcases].
  destruct (Hcases (str "YeS")) as (Htrue & _ & _).
  - exists [32], [], [SQ], [SQ], [], [32].
    repeat split; repeat constructor.
  - apply Htrue. exists (str "yes"). split; [by_evaluation |].
    apply Forall2_cons_2; [right; left; reflexivity |].
    apply Forall2_cons_2; [left; reflexivity |].
    apply Forall2_cons_2; [right; left; reflexivity |].
    apply Forall2_nil_2.
Defined.

(** ** Schema manager *)

Lemma split_first_app (q : pychar) (a b : pystr) :
  q ∉ a -> split_first q (a ++ q :: b) = Some (a, b).
Proof.
  induction a as [|c a IH]; simpl; intros Hq.
  - rewrite N.eqb_refl. reflexivity.
  - apply not_elem_of_cons in Hq as [Hc Ha].
    destruct (N.eqb_spec c q) as [->|_]; [congruence |].
    rewrite IH by assumption. reflexivity.
Qed.

Lemma split_first_none (q : pychar) (s : pystr) :
  q ∉ s -> split_first q s = None.
Proof.
  induction s as [|c s IH]; simpl; intros Hq; [reflexivity |].
  apply not_elem_of_cons in Hq as [Hc Hs].
  destruct (N.eqb_spec c q) as [->|_]; [congruence |].
  rewrite IH by assumption. reflexivity.
Qed.

Lemma contains_app (q : pychar) (a b : pystr) : contains q (a ++ q :: b) = true.
Proof.
  unfold contains. rewrite existsb_app. simpl. unfold is_char at 2.
  rewrite N.eqb_refl. apply orb_true_r.
Qed.

Lemma parse_column_ok (spec : pystr) (c : column) :
  spec_column spec c -> parse_column spec = Ok c.
Proof.
  intros (name & ty & -> & Hname & Hty & ->). unfold parse_column.
  rewrite contains_app. simpl negb. cbv iota.
  rewrite split_first_app by assumption.
  rewrite bool_decide_eq_true_2 by assumption. reflexivity.
Qed.

Lemma parse_columns_ok (specs : list pystr) (cols : list column) :
  Forall2 spec_column specs cols -> parse_columns specs = Ok cols.
Proof.
  induction 1 as [|spec c specs cols Hc _ IH]; simpl; [reflexivity |].
  rewrite (parse_column_ok _ _ Hc). unfold Ok in *. rewrite IH. reflexivity.
Qed.

(** C2, as the code has it: creating a table that is not there yet from
    well-formed column specs succeeds, reads and writes no record document,
    and defines the table as the column [ID:int] followed by the columns of
    the specs, one for one and in their order.  The names are not compared:
    nothing is said about duplicates. *)
Theorem create_table_prepends_ID (md : metadata) (t : pystr)
    (specs : list pystr) (cols : list column) (w : world) :
  md !! t = None ->
  Forall2 spec_column specs cols ->
  create_table md t specs w = (Ok (<[t := ID_COLUMN :: cols]> md), w)
  /\ length cols = length specs.
Proof.
  intros Hnew Hspecs. split.
  - unfold create_table. rewrite Hnew. unfold bind, lift, ret.
    rewrite (parse_columns_ok _ _ Hspecs). reflexivity.
  - symmetry. eapply Forall2_length. eassumption.
Qed.

Lemma users_specs_well_formed : Forall2 spec_column users_specs users_columns.
Proof.
  repeat constructor.
  - exists (str "name"), (str "str"). repeat split.
    + by_evaluation.
    + by_evaluation.
  - exists (str "age"), (str "int"). repeat split.
    + by_evaluation.
    + by_evaluation.
  - exists (str "active"), (str "bool"). repeat split.
    + by_evaluation.
    + by_evaluation.
Defined.

Lemma create_table_prepends_ID_witness :
  create_table ∅ (str "users") users_specs (World ∅ [])
  = (Ok (<[str "users" := ID_COLUMN :: users_columns]> ∅), World ∅ [])
  /\ length users_columns = length users_specs.
Proof.
  apply (create_table_prepends_ID ∅ (str "users") users_specs users_columns).
  - reflexivity.
  - exact users_specs_well_formed.
Defined.

(** The spec [ID:int] is well formed, and the table then has two columns
    named [ID]. *)
Lemma create_table_second_ID :
  Forall2 spec_column [str "ID:int"] [ID_COLUMN]
  /\ create_table ∅ (str "t") [str "ID:int"] (World ∅ [])
     = (Ok (<[str "t" := [ID_COLUMN; ID_COLUMN]]> ∅), World ∅ [])
  /\ ~ NoDup (col_name <$> [ID_COLUMN; ID_COLUMN]).
Proof.
  split; [| split].
  - repeat constructor. exists (str "ID"), (str "int"). repeat split.
    + by_evaluation.
    + by_evaluation.
  - vm_compute. reflexivity.
  - intros H. apply NoDup_cons in H as [H _]. apply H. left.
Qed.

(** C8: [drop_table] leaves the world as it is (no record document is
    read, written or removed), fails on a table that is not there and
    otherwise removes that table's entry and no other. *)
Theorem drop_table_frame (md : metadata) (t : pystr) (w : world) :
  snd (drop_table md t w) = w
  /\ (md !! t = None -> fst (drop_table md t w) = Err (NoSuchTable t))
  /\ (is_Some (md !! t) ->
      fst (drop_table md t w) = Ok (delete t md)
      /\ delete t md !! t = None
      /\ forall t', t' <> t -> delete t md !! t' = md !! t').
Proof.
  unfold drop_table. destruct (md !! t) as [cols|] eqn:Hmd.
  - split; [reflexivity |]. split; [intros H; discriminate H |].
    intros _. split; [reflexivity |]. split.
    + apply lookup_delete_eq.
    + intros t' Hne. apply lookup_delete_ne. congruence.
  - split; [reflexivity |]. split; [reflexivity |].
    intros [x Hx]. discriminate Hx.
Qed.

Lemma users_md_lookup : users_md !! users = Some (ID_COLUMN :: users_columns).
Proof. unfold users_md. apply lookup_insert_eq. Qed.

Lemma drop_table_frame_witness :
  snd (drop_table users_md users (disk [ann])) = disk [ann]
  /\ fst (drop_table users_md users (disk [ann])) = Ok (delete users users_md).
Proof.
  destruct (drop_table_frame users_md users (disk [ann])) as (Hw & _ & Hdrop).
  split; [exact Hw |].
  apply Hdrop. rewrite users_md_lookup. eexists. reflexivity.
Defined.

(** ** Record engine: column lookup *)

Lemma type_of_last_acc (columns : list column) (c : pystr) (acc : option pystr) :
  foldl (fun acc col =>
           if bool_decide (col_name col = c) then Some (col_type col) else acc)
        acc columns = None
  <-> acc = None /\ (c ∉ names columns).
Proof.
  revert acc. induction columns as [|col columns IH]; intros acc; simpl.
  - split; [intros ->; split; [reflexivity | apply not_elem_of_nil] | tauto].
  - rewrite IH, not_elem_of_cons. case_bool_decide as Hc.
    + split; [intros [H _]; discriminate H | intros [_ [H _]]; congruence].
    + split; [intros [-> H]; repeat split; congruence | tauto].
Qed.

Lemma type_of_last_None (columns : list column) (c : pystr) :
  type_of_last columns c = None <-> (c ∉ names columns).
Proof. unfold type_of_last. rewrite type_of_last_acc. tauto. Qed.

Lemma type_of_first_None (columns : list column) (c : pystr) :
  type_of_first columns c = None <-> (c ∉ names columns).
Proof.
  induction columns as [|col columns IH]; simpl.
  - split; [intros _; apply not_elem_of_nil | reflexivity].
  - rewrite not_elem_of_cons. case_bool_decide as Hc.
    + split; [discriminate | intros [H _]; congruence].
    + rewrite IH. split; [intros H; split; congruence | tauto].
Qed.

(** The first column called [c] decides the type that [select_from] and
    [delete_from] coerce to. *)
Lemma type_of_first_app (pre post : list column) (c ty : pystr) :
  (c ∉ names pre) -> type_of_first (pre ++ Column c ty :: post) c = Some ty.
Proof.
  induction pre as [|col pre IH]; simpl; intros Hc.
  - rewrite bool_decide_eq_true_2 by reflexivity. reflexivity.
  - apply not_elem_of_cons in Hc as [Hne Hpre].
    rewrite bool_decide_eq_false_2 by congruence. apply IH. assumption.
Qed.

(** ** Record engine: update *)

(** C4: an update that names a column the table does not have fails with
    the message for that column after it has read the document, and saves
    nothing: the documents are as before and the log gains one load. *)
Theorem update_table_unknown_column (md : metadata) (t : pystr)
    (columns : list column) (sc sv wc wv : pystr) (w : world) :
  md !! t = Some columns ->
  (sc ∉ names columns) \/ (wc ∉ names columns) ->
  update_table md t sc sv wc wv w
  = (Err (NoSuchColumn (if bool_decide (sc ∈ names columns) then wc else sc)),
     loaded w t)
  /\ tables (snd (update_table md t sc sv wc wv w)) = tables w.
Proof.
  intros Hmd Hcol.
  assert (Hrun : update_table md t sc sv wc wv w
    = (Err (NoSuchColumn (if bool_decide (sc ∈ names columns) then wc else sc)),
       loaded w t)).
  { unfold update_table. rewrite Hmd. unfold bind, load_table_data, raise.
    destruct (type_of_last columns sc) as [sty|] eqn:Hsc.
    - assert (Hin : sc ∈ names columns).
      { destruct (decide (sc ∈ names columns)) as [|Hn]; [assumption |].
        apply type_of_last_None in Hn. congruence. }
      rewrite bool_decide_eq_true_2 by assumption.
      destruct Hcol as [Hn | Hn]; [contradiction |].
      apply type_of_last_None in Hn. rewrite Hn. reflexivity.
    - apply type_of_last_None in Hsc.
      rewrite bool_decide_eq_false_2 by assumption. reflexivity. }
  split; [exact Hrun | rewrite Hrun; reflexivity].
Qed.

Lemma update_table_unknown_column_witness :
  update_table users_md users (str "salary") (str "10") (str "name")
    (str "Ann") (disk [ann])
  = (Err (NoSuchColumn (str "salary")), loaded (disk [ann]) users)
  /\ tables (snd (update_table users_md users (str "salary") (str "10")
                    (str "name") (str "Ann") (disk [ann])))
     = tables (disk [ann]).
Proof.
  apply (update_table_unknown_column users_md users (ID_COLUMN :: users_columns)
           (str "salary") (str "10") (str "name") (str "Ann") (disk [ann])).
  - exact users_md_lookup.
  - left. by_evaluation.
Defined.

(** ** Record engine: select *)

Lemma shown_nil (columns : list column) : shown columns [] = Ok [].
Proof. reflexivity. Qed.

Lemma shown_distinct (columns : list column) (data : list record) :
  NoDup (names columns) -> shown columns data = Ok data.
Proof.
  intros Hnd. destruct data as [|r data]; [reflexivity |]. unfold shown.
  rewrite bool_decide_eq_true_2 by exact Hnd. reflexivity.
Qed.

Lemma shown_repeated (columns : list column) (data : list record) :
  data <> [] -> ~ NoDup (names columns) ->
  shown columns data = Err FieldNamesNotUnique.
Proof.
  intros Hdata Hnd. destruct data as [|r data]; [congruence |]. unfold shown.
  rewrite bool_decide_eq_false_2 by exact Hnd. reflexivity.
Qed.

Lemma select_from_all (md : metadata) (t : pystr) (columns : list column)
    (w : world) :
  md !! t = Some columns ->
  select_from md t None None w = (shown columns (stored w t), loaded w t).
Proof.
  intros Hmd. unfold select_from. rewrite Hmd.
  unfold bind, load_table_data, lift, ret, Ok, stored. cbv beta iota.
  destruct (shown _ _); reflexivity.
Qed.

Lemma select_from_run (md : metadata) (t : pystr)
    (pre post : list column) (wc wv ty : pystr) (pv : value) (w : world) :
  md !! t = Some (pre ++ Column wc ty :: post) ->
  (wc ∉ names pre) ->
  wc <> [] -> wv <> [] ->
  parse_value wv ty = Ok pv ->
  select_from md t (Some wc) (Some wv) w
  = (shown (pre ++ Column wc ty :: post)
       (filter (fun r => matches wc pv r) (stored w t)),
     loaded w t).
Proof.
  intros Hmd Hpre Hwc Hwv Hpv.
  unfold select_from. rewrite Hmd. unfold bind, load_table_data, lift, ret.
  destruct wc as [|c wc]; [congruence |].
  destruct wv as [|v wv]; [congruence |].
  change (truthy (Some (c :: wc)) && truthy (Some (v :: wv))) with true.
  cbv beta iota.
  rewrite type_of_first_app by assumption. rewrite Hpv. unfold Ok, stored.
  cbv beta iota.
  destruct (shown _ _); reflexivity.
Qed.

(** C5, as the code has it: with a non-empty where-column that the table
    has and a non-empty where-value that coerces to the type of the first
    column of that name, [select_from] reads the document, saves nothing
    and finds the records whose value under the column is equal, as Python
    values, to the coerced value, in the order of the document.  It shows
    them when there are none or when the column names of the table are
    distinct; when a column name repeats and a record is found, the
    display fails.  A table that is not there is an error, which no list
    of records is. *)
Theorem select_from_where (md : metadata) (t : pystr)
    (pre post : list column) (wc wv ty : pystr) (pv : value) (w : world) :
  md !! t = Some (pre ++ Column wc ty :: post) ->
  (wc ∉ names pre) ->
  wc <> [] -> wv <> [] ->
  parse_value wv ty = Ok pv ->
  snd (select_from md t (Some wc) (Some wv) w) = loaded w t
  /\ (filter (fun r => matches wc pv r) (stored w t) = []
      \/ NoDup (names (pre ++ Column wc ty :: post)) ->
      fst (select_from md t (Some wc) (Some wv) w)
      = Ok (filter (fun r => matches wc pv r) (stored w t)))
  /\ (filter (fun r => matches wc pv r) (stored w t) <> [] ->
      ~ NoDup (names (pre ++ Column wc ty :: post)) ->
      fst (select_from md t (Some wc) (Some wv) w) = Err FieldNamesNotUnique)
  /\ (forall r : record,
        r ∈ filter (fun r => matches wc pv r) (stored w t)
        <-> r ∈ stored w t /\ exists x, r !! wc = Some x /\ py_eq x pv = true)
  /\ sublist (filter (fun r => matches wc pv r) (stored w t)) (stored w t)
  /\ fst (select_from (delete t md) t (Some wc) (Some wv) w)
     = Err (NoSuchTable t).
Proof.
  intros Hmd Hpre Hwc Hwv Hpv.
  rewrite (select_from_run md t pre post wc wv ty pv w Hmd Hpre Hwc Hwv Hpv).
  simpl fst. simpl snd.
  split; [reflexivity |]. split; [| split; [| split; [| split]]].
  - intros [Hnone | Hnd].
    + rewrite Hnone. reflexivity.
    + apply shown_distinct. assumption.
  - intros Hsome Hnd. apply shown_repeated; assumption.
  - intros r. rewrite list_elem_of_filter. unfold matches, get_eq.
    destruct (r !! wc) as [x|].
    + rewrite Is_true_true. split.
      * intros [Heq Hr]. split; [assumption |]. exists x. split; [reflexivity | assumption].
      * intros [Hr (y & Hy & Heq)]. split; [congruence | assumption].
    + split; [intros [[] _] | intros [_ (y & Hy & _)]; discriminate Hy].
  - apply sublist_filter.
  - unfold select_from. rewrite lookup_delete_eq. reflexivity.
Qed.

Lemma users_md_age :
  users_md !! users
  = Some ([ID_COLUMN; Column NAME T_STR] ++ Column AGE T_INT
            :: [Column ACTIVE T_BOOL]).
Proof. exact users_md_lookup. Qed.

(** The value [030] selects the records whose age is the number 30. *)
Lemma select_from_where_witness :
  fst (select_from users_md users (Some AGE) (Some (str "030"))
         (disk [ann; bob; eve]))
  = Ok (filter (fun r => matches AGE (VInt 30) r) [ann; bob; eve]).
Proof.
  pose proof (select_from_where users_md users
                [ID_COLUMN; Column NAME T_STR] [Column ACTIVE T_BOOL]
                AGE (str "030") T_INT (VInt 30) (disk [ann; bob; eve])) as H.
  destruct H as (_ & Hsel & _).
  - exact users_md_age.
  - by_evaluation.
  - discriminate.
  - discriminate.
  - vm_compute. reflexivity.
  - apply Hsel. right. by_evaluation.
Defined.

Example select_from_age_30 :
  filter (fun r => matches AGE (VInt 30) r) [ann; bob; eve] = [ann; eve].
Proof. vm_compute. reflexivity. Qed.

(** The predicate [name = ''] is in the schema and its value coerces to the
    empty string, which is not the name of [ann]; [select_from] shows [ann]
    all the same.  On the table with two columns [ID], the predicate
    [ID = 1] finds the record and the display fails. *)
Lemma select_from_empty_value_shows_all :
  parse_value [] T_STR = Ok (VStr [])
  /\ fst (select_from users_md users (Some NAME) (Some []) (disk [ann; eve]))
     = Ok [ann; eve]
  /\ matches NAME (VStr []) ann = false
  /\ fst (select_from twins_md twins (Some ID) (Some (str "1")) twins_disk)
     = Err FieldNamesNotUnique.
Proof. repeat split; vm_compute; reflexivity. Qed.

(** C10, as the code has it: without a where-column or without a
    where-value ([None] or the empty string), [select_from] never looks the
    column up: it reads the document and shows every record of the table,
    when the document is empty or the column names of the table are
    distinct; when a column name repeats and the document has a record,
    the display fails. *)
Theorem select_from_ignores_empty_predicate (md : metadata) (t : pystr)
    (columns : list column) (wc wv : option pystr) (w : world) :
  md !! t = Some columns ->
  wc = None \/ wc = Some [] \/ wv = None \/ wv = Some [] ->
  snd (select_from md t wc wv w) = loaded w t
  /\ (stored w t = [] \/ NoDup (names columns) ->
      fst (select_from md t wc wv w) = Ok (stored w t))
  /\ (stored w t <> [] -> ~ NoDup (names columns) ->
      fst (select_from md t wc wv w) = Err FieldNamesNotUnique).
Proof.
  intros Hmd Hempty.
  assert (Hrun : select_from md t wc wv w
                 = (shown columns (stored w t), loaded w t)).
  { unfold select_from. rewrite Hmd.
    unfold bind, load_table_data, lift, ret, Ok, stored.
    destruct wc as [[|c wc]|], wv as [[|v wv]|]; simpl;
      try (destruct (shown _ _); reflexivity).
    destruct Hempty as [H | [H | [H | H]]]; discriminate H. }
  rewrite Hrun. simpl fst. simpl snd.
  split; [reflexivity |]. split.
  - intros [Hnone | Hnd].
    + rewrite Hnone. reflexivity.
    + apply shown_distinct. assumption.
  - intros Hsome Hnd. apply shown_repeated; assumption.
Qed.

Lemma select_from_ignores_empty_predicate_witness :
  fst (select_from users_md users (Some (str "salary")) (Some [])
         (disk [ann; bob]))
  = Ok (stored (disk [ann; bob]) users).
Proof.
  destruct (select_from_ignores_empty_predicate users_md users
              (ID_COLUMN :: users_columns) (Some (str "salary")) (Some [])
              (disk [ann; bob])) as (_ & Hall & _).
  - exact users_md_lookup.
  - right. right. right. reflexivity.
  - apply Hall. right. by_evaluation.
Defined.

(** On the table with two columns [ID] and one record, the select with an
    empty where-value does not return the record: the display fails. *)
Lemma select_from_repeated_names_fails :
  twins_md !! twins = Some [ID_COLUMN; ID_COLUMN]
  /\ stored twins_disk twins = [{[ID := VInt 1]}]
  /\ fst (select_from twins_md twins (Some (str "x")) (Some []) twins_disk)
     = Err FieldNamesNotUnique.
Proof. repeat split; vm_compute; reflexivity. Qed.

(** ** Record engine: delete *)

Lemma delete_loop_spec (wc : pystr) (pv : value) (data : list record) :
  Forall has_ID data ->
  exists ids,
    delete_loop wc pv data
    = Ok (filter (fun r => ~ matches wc pv r) data, ids)
    /\ Forall2 (fun r i => r !! ID = Some i)
               (filter (fun r => matches wc pv r) data) ids.
Proof.
  induction 1 as [|r data [i Hi] _ (ids & Hloop & Hids)]; simpl.
  - exists []. split; [reflexivity | constructor].
  - destruct (matches wc pv r) eqn:Hm.
    + rewrite Hi, Hloop. exists (i :: ids). split.
      * rewrite filter_cons_False; [reflexivity |].
        rewrite Hm. intros Hn. apply Hn. exact I.
      * rewrite filter_cons_True by (rewrite Hm; exact I).
        constructor; assumption.
    + rewrite Hloop. exists ids. split.
      * rewrite filter_cons_True; [reflexivity |]. rewrite Hm. intros [].
      * rewrite filter_cons_False; [assumption |]. rewrite Hm. intros [].
Qed.

Lemma filter_matches_kept (wc : pystr) (pv : value) (data : list record) :
  filter (fun r => matches wc pv r) (filter (fun r => ~ matches wc pv r) data)
  = [].
Proof.
  induction data as [|r data IH]; [reflexivity |].
  destruct (matches wc pv r) eqn:Hm.
  - rewrite (filter_cons_False (fun r => ~ matches wc pv r));
      [assumption |]. rewrite Hm. intros Hn. apply Hn. exact I.
  - rewrite (filter_cons_True (fun r => ~ matches wc pv r));
      [| rewrite Hm; intros []].
    rewrite filter_cons_False; [assumption |]. rewrite Hm. intros [].
Qed.

(** C7, as the code has it: for a non-empty where-column of the table and a
    non-empty where-value that coerces to its type, over a document whose
    records all have an [ID], [delete_from] reports the IDs of the matching
    records; when there are none it saves nothing, otherwise it saves the
    records that do not match; the same predicate then selects nothing. *)
Theorem delete_then_select_empty (md : metadata) (t : pystr)
    (pre post : list column) (wc wv ty : pystr) (pv : value) (w : world) :
  md !! t = Some (pre ++ Column wc ty :: post) ->
  (wc ∉ names pre) ->
  wc <> [] -> wv <> [] ->
  parse_value wv ty = Ok pv ->
  Forall has_ID (stored w t) ->
  exists ids w',
    delete_from md t wc wv w = (Ok ids, w')
    /\ Forall2 (fun r i => r !! ID = Some i)
               (filter (fun r => matches wc pv r) (stored w t)) ids
    /\ w' = (if decide (ids = []) then loaded w t
             else saved (loaded w t) t
                    (filter (fun r => ~ matches wc pv r) (stored w t)))
    /\ fst (select_from md t (Some wc) (Some wv) w') = Ok [].
Proof.
  intros Hmd Hpre Hwc Hwv Hpv HID.
  destruct (delete_loop_spec wc pv (stored w t) HID) as (ids & Hloop & Hids).
  assert (Hdel : delete_from md t wc wv w
    = (Ok ids, if decide (ids = []) then loaded w t
               else saved (loaded w t) t
                      (filter (fun r => ~ matches wc pv r) (stored w t)))).
  { unfold delete_from. rewrite Hmd.
    unfold bind, load_table_data, lift, ret, save_table_data.
    rewrite type_of_first_app by assumption. rewrite Hpv.
    unfold stored in Hloop. unfold Ok in *. cbv beta iota. rewrite Hloop.
    destruct ids as [|i ids]; reflexivity. }
  eexists ids, _. split; [exact Hdel |]. split; [exact Hids |].
  split; [reflexivity |].
  destruct ids as [|i ids].
  - rewrite decide_True by reflexivity.
    erewrite select_from_run by eassumption. simpl fst.
    apply Forall2_nil_inv_r in Hids. unfold stored, loaded. simpl tables.
    fold (stored w t). rewrite Hids. reflexivity.
  - rewrite decide_False by discriminate.
    erewrite select_from_run by eassumption. simpl fst.
    unfold stored at 1. unfold saved, loaded. simpl tables.
    rewrite lookup_insert_eq. simpl default.
    rewrite filter_matches_kept. reflexivity.
Qed.

Lemma three_users_have_ID : Forall has_ID [ann; bob; eve].
Proof.
  repeat constructor.
  - exists (VInt 1). vm_compute. reflexivity.
  - exists (VInt 2). vm_compute. reflexivity.
  - exists (VInt 3). vm_compute. reflexivity.
Defined.

Lemma delete_then_select_empty_witness :
  fst (delete_from users_md users AGE (str "30") (disk [ann; bob; eve]))
  = Ok [VInt 1; VInt 3]
  /\ fst (select_from users_md users (Some AGE) (Some (str "30"))
            (snd (delete_from users_md users AGE (str "30")
                    (disk [ann; bob; eve]))))
     = Ok [].
Proof.
  destruct (delete_then_select_empty users_md users
              [ID_COLUMN; Column NAME T_STR] [Column ACTIVE T_BOOL]
              AGE (str "30") T_INT (VInt 30) (disk [ann; bob; eve]))
    as (ids & w' & Hdel & _ & _ & Hsel).
  - exact users_md_age.
  - by_evaluation.
  - discriminate.
  - discriminate.
  - vm_compute. reflexivity.
  - exact three_users_have_ID.
  - split.
    + vm_compute. reflexivity.
    + rewrite Hdel. exact Hsel.
Defined.

(** Deleting the records with the empty name removes [eve]; selecting with
    the same predicate then shows [ann]. *)
Lemma delete_then_select_empty_value :
  delete_from users_md users NAME [] (disk [ann; eve])
  = (Ok [VInt 3], saved (loaded (disk [ann; eve]) users) users [ann])
  /\ fst (select_from users_md users (Some NAME) (Some [])
            (saved (loaded (disk [ann; eve]) users) users [ann]))
     = Ok [ann].
Proof. split; vm_compute; reflexivity. Qed.

(** ** Record engine: insert *)

Lemma max_list_ge (l : list Z) (i : Z) :
  (i <= max_list i l)%Z /\ Forall (fun x => (x <= max_list i l)%Z) l.
Proof.
  unfold max_list. revert i. induction l as [|x l IH]; intros i; simpl.
  - split; [lia | constructor].
  - destruct (IH (Z.max i x)) as [Hi Hl]. split; [lia |].
    constructor; [lia | assumption].
Qed.

Lemma next_above (ids : list Z) : Forall (fun i => (i < next ids)%Z) ids.
Proof.
  destruct ids as [|i l]; [constructor |]. unfold next.
  destruct (max_list_ge l i) as [Hi Hl].
  constructor; [lia |]. eapply Forall_impl; [exact Hl |].
  intros x Hx. simpl in Hx. lia.
Qed.

Lemma next_id_ok (data : list record) (ids : list Z) :
  ids_of data = Some ids -> next_id data = Ok (next ids).
Proof.
  unfold next_id. destruct data as [|r data].
  - simpl. intros [= <-]. reflexivity.
  - intros H. rewrite H. destruct ids as [|i l]; [| reflexivity].
    simpl in H. destruct (id_of r), (ids_of data); discriminate H.
Qed.

Lemma next_id_inv (data : list record) (n : Z) :
  next_id data = Ok n -> exists ids, ids_of data = Some ids /\ n = next ids.
Proof.
  unfold next_id. destruct data as [|r data].
  - intros [= <-]. exists []. split; reflexivity.
  - destruct (ids_of (r :: data)) as [[|i l]|]; try discriminate.
    intros [= <-]. exists (i :: l). split; reflexivity.
Qed.

Lemma ids_of_elem (data : list record) (ids : list Z) (r : record) (i : Z) :
  ids_of data = Some ids -> r ∈ data -> id_of r = Some i -> i ∈ ids.
Proof.
  revert ids. induction data as [|r0 data IH]; intros ids Hids Hr Hi.
  - apply elem_of_nil in Hr. contradiction.
  - simpl in Hids. destruct (id_of r0) as [i0|] eqn:H0; [| discriminate].
    destruct (ids_of data) as [l|]; [| discriminate].
    injection Hids as <-. apply elem_of_cons in Hr as [-> | Hr].
    + rewrite Hi in H0. injection H0 as ->. left.
    + right. apply (IH l); [reflexivity | assumption | assumption].
Qed.

(** The next ID is above the ID of every record of the document. *)
Lemma next_id_above (data : list record) (n : Z) (r : record) (i : Z) :
  next_id data = Ok n -> r ∈ data -> id_of r = Some i -> (i < n)%Z.
Proof.
  intros Hn Hr Hi. apply next_id_inv in Hn as (ids & Hids & ->).
  pose proof (next_above ids) as Habove. rewrite Forall_forall in Habove.
  apply Habove. eapply ids_of_elem; eassumption.
Qed.

Lemma fill_record_ok (cols : list column) (values : list pystr) (rec : record) :
  Forall (fun col => col_name col <> ID) cols ->
  Forall2 coercible cols values ->
  exists rec', fill_record cols values rec = Ok rec' /\ rec' !! ID = rec !! ID.
Proof.
  intros Hne Hco. revert rec.
  induction Hco as [|col v cols values [x Hx] _ IH]; intros rec; simpl.
  - exists rec. split; reflexivity.
  - apply Forall_cons in Hne as [Hcol Hne]. rewrite Hx.
    destruct (IH Hne (<[col_name col := x]> rec)) as (rec' & Hfill & HID).
    exists rec'. split; [assumption |].
    rewrite HID. apply lookup_insert_ne. assumption.
Qed.

Lemma fill_record_ID (cols : list column) (values : list pystr)
    (rec rec' : record) :
  Forall (fun col => col_name col <> ID) cols ->
  fill_record cols values rec = Ok rec' -> rec' !! ID = rec !! ID.
Proof.
  intros Hne. revert values rec.
  induction Hne as [|col cols Hcol _ IH]; intros values rec; simpl.
  - intros [= <-]. reflexivity.
  - destruct values as [|v values]; [intros [= <-]; reflexivity |].
    destruct (parse_value v (col_type col)) as [e|x]; [discriminate |].
    intros Hfill. rewrite (IH _ _ Hfill). apply lookup_insert_ne. assumption.
Qed.

Lemma user_columns_not_ID (columns : list column) :
  Forall (fun col => col_name col <> ID) (user_columns_of columns).
Proof.
  apply Forall_forall. intros col Hcol. unfold user_columns_of in Hcol.
  apply list_elem_of_filter in Hcol as [Hne _]. exact Hne.
Qed.

(** What a successful [insert_into] has done. *)
Lemma insert_into_inv (md : metadata) (t : pystr) (values : list pystr)
    (w w' : world) (new_id : Z) :
  insert_into md t values w = (Ok new_id, w') ->
  exists rec,
    next_id (stored w t) = Ok new_id
    /\ id_of rec = Some new_id
    /\ w' = saved (loaded w t) t (stored w t ++ [rec]).
Proof.
  unfold insert_into. destruct (md !! t) as [columns|]; [| discriminate].
  destruct (negb _); [discriminate |].
  unfold bind, load_table_data, lift, ret, save_table_data, Ok.
  fold (stored w t).
  destruct (next_id (stored w t)) as [e|n] eqn:Hn; [discriminate |].
  destruct (fill_record _ values _) as [e|rec] eqn:Hfill; [discriminate |].
  intros [= <- <-]. exists rec. split; [reflexivity |]. split; [| reflexivity].
  apply fill_record_ID in Hfill; [| apply user_columns_not_ID].
  unfold id_of. rewrite Hfill, lookup_singleton_eq. reflexivity.
Qed.

Lemma stored_saved (w : world) (t : pystr) (data : list record) :
  stored (saved w t data) t = data.
Proof. unfold stored, saved. simpl. rewrite lookup_insert_eq. reflexivity. Qed.

Lemma run_invariant (md : metadata) (t : pystr) (w w' : world)
    (assigned : list Z) :
  run md t w assigned w' ->
  StronglySorted Z.lt assigned
  /\ forall n, next_id (stored w' t) = Ok n ->
                Forall (fun a => (a < n)%Z) assigned.
Proof.
  induction 1 as [| assigned w1 values new_id w2 _ [Hsorted Hbelow] Hins
                  | assigned w1 wc wv deleted w2 r i _ [Hsorted Hbelow]
                      _ Hr Hi Hle].
  - split; [constructor | intros; constructor].
  - apply insert_into_inv in Hins as (rec & Hnext & Hrec & ->).
    specialize (Hbelow _ Hnext). split.
    + apply StronglySorted_app_2; [| assumption | repeat constructor].
      intros a b Ha Hb. apply list_elem_of_singleton in Hb as ->.
      rewrite Forall_forall in Hbelow. apply Hbelow. assumption.
    + intros n Hn. rewrite stored_saved in Hn.
      assert (Hlt : (new_id < n)%Z).
      { apply (next_id_above _ _ rec _ Hn); [| assumption].
        apply elem_of_app. right. left. }
      apply Forall_app. split; [| repeat constructor; assumption].
      eapply Forall_impl; [exact Hbelow |]. intros a Ha. simpl in Ha. lia.
  - split; [assumption |]. intros n Hn.
    pose proof (next_id_above _ _ _ _ Hn Hr Hi) as Hlt.
    eapply Forall_impl; [exact Hle |]. intros a Ha. simpl in Ha. lia.
Qed.

(** C3, as the code has it: on a table that is there, with values that
    coerce to the user columns and a document whose IDs are numbers,
    [insert_into] assigns the largest ID of the document plus one, or 1 for
    an empty document, and appends the record; that ID is above every ID of
    the document.  Over a sequence of inserts and deletes in which every
    delete leaves a record whose ID is at least the IDs assigned so far,
    the assigned IDs are strictly increasing. *)
Theorem insert_into_assigns_next (md : metadata) (t : pystr) :
  (forall (columns : list column) (values : list pystr) (w : world)
          (ids : list Z),
      md !! t = Some columns ->
      Forall2 coercible (user_columns_of columns) values ->
      ids_of (stored w t) = Some ids ->
      exists rec,
        insert_into md t values w
        = (Ok (next ids), saved (loaded w t) t (stored w t ++ [rec]))
        /\ id_of rec = Some (next ids)
        /\ Forall (fun i => (i < next ids)%Z) ids)
  /\ (forall (w : world) (assigned : list Z) (w' : world),
        run md t w assigned w' -> StronglySorted Z.lt assigned).
Proof.
  split.
  - intros columns values w ids Hmd Hco Hids.
    destruct (fill_record_ok (user_columns_of columns) values
                {[ID := VInt (next ids)]} (user_columns_not_ID columns) Hco)
      as (rec & Hfill & HID).
    exists rec. split; [| split].
    + unfold insert_into. rewrite Hmd.
      rewrite (Forall2_length _ _ _ Hco), Nat.eqb_refl.
      pose proof (next_id_ok _ _ Hids) as Hnext.
      unfold bind, load_table_data, lift, ret, save_table_data.
      unfold stored, Ok in *. cbv beta iota delta [negb]. rewrite Hnext.
      cbv beta iota. rewrite Hfill. reflexivity.
    + unfold id_of. rewrite HID, lookup_singleton_eq. reflexivity.
    + apply next_above.
  - intros w assigned w' Hrun. apply (run_invariant md t w w' assigned Hrun).
Qed.

(** Insert, insert, delete the record 1, insert: the IDs are 1, 2, 3. *)
Lemma run_1_2_3 :
  run users_md users (disk []) [1; 2; 3]%Z
    (after_insert (after_delete (str "1")
                     (after_insert (after_insert (disk []))))).
Proof.
  apply (run_insert users_md users (disk []) [1; 2]%Z
           (after_delete (str "1") (after_insert (after_insert (disk []))))
           row 3%Z); [| vm_compute; reflexivity].
  apply (run_delete users_md users (disk []) [1; 2]%Z
           (after_insert (after_insert (disk []))) ID (str "1") [VInt 1] _
           (person 2 (str "Ann") 30 true) 2%Z).
  - apply (run_insert users_md users (disk []) [1]%Z
             (after_insert (disk [])) row 2%Z); [| vm_compute; reflexivity].
    apply (run_insert users_md users (disk []) [] (disk []) row 1%Z);
      [| vm_compute; reflexivity].
    apply run_start.
  - vm_compute. reflexivity.
  - by_evaluation.
  - vm_compute. reflexivity.
  - repeat constructor; lia.
Defined.

Lemma row_coercible :
  Forall2 coercible (user_columns_of (ID_COLUMN :: users_columns)) row.
Proof.
  repeat constructor.
  - exists (VStr (str "Ann")). vm_compute. reflexivity.
  - exists (VInt 30). vm_compute. reflexivity.
  - exists (VBool true). vm_compute. reflexivity.
Defined.

Lemma insert_into_assigns_next_witness :
  (exists rec,
      insert_into users_md users row (disk [ann; bob])
      = (Ok 3%Z, saved (loaded (disk [ann; bob]) users) users
                   ([ann; bob] ++ [rec])))
  /\ StronglySorted Z.lt [1; 2; 3]%Z.
Proof.
  destruct (insert_into_assigns_next users_md users) as [Hins Hrun]. split.
  - destruct (Hins (ID_COLUMN :: users_columns) row (disk [ann; bob])
                [1; 2]%Z) as (rec & Hrec & _).
    + exact users_md_lookup.
    + exact row_coercible.
    + vm_compute. reflexivity.
    + exists rec. exact Hrec.
  - exact (Hrun _ _ _ run_1_2_3).
Defined.

(** Three inserts assign 1, 2 and 3; once the records 3 and 2 are deleted,
    the next insert assigns 2 again. *)
Lemma insert_into_reuses_ID :
  let w1 := after_insert (disk []) in
  let w2 := after_insert w1 in
  let w3 := after_insert w2 in
  let w4 := after_delete (str "3") w3 in
  let w5 := after_delete (str "2") w4 in
  fst (insert_into users_md users row (disk [])) = Ok 1%Z
  /\ fst (insert_into users_md users row w1) = Ok 2%Z
  /\ fst (insert_into users_md users row w2) = Ok 3%Z
  /\ fst (delete_from users_md users ID (str "3") w3) = Ok [VInt 3]
  /\ fst (delete_from users_md users ID (str "2") w4) = Ok [VInt 2]
  /\ fst (insert_into users_md users row w5) = Ok 2%Z
  /\ ~ StronglySorted Z.lt [1; 2; 3; 2]%Z.
Proof.
  repeat split; try (vm_compute; reflexivity).
  intros H. apply StronglySorted_cons in H as [_ H].
  apply StronglySorted_cons in H as [H _].
  apply Forall_cons in H as [_ H]. apply Forall_cons in H as [H _]. lia.
Qed.

(** ** Command parser *)

Lemma span_length (p : pychar -> bool) (s : pystr) :
  (length (snd (span p s)) <= length s)%nat.
Proof.
  induction s as [|c s IH]; simpl; [lia |].
  destruct (p c); [| simpl; lia].
  destruct (span p s) as [a b]. simpl in *. lia.
Qed.

Lemma split_first_length (q : pychar) (s a b : pystr) :
  split_first q s = Some (a, b) -> (length b < length s)%nat.
Proof.
  revert a. induction s as [|c s IH]; intros a; simpl; [discriminate |].
  destruct (c =? q).
  - intros [= <- <-]. lia.
  - destruct (split_first q s) as [[a' b']|]; [| discriminate].
    intros [= <- <-]. specialize (IH a' eq_refl). lia.
Qed.

Lemma findall_fuel_enough (n m : nat) (s : pystr) :
  (length s <= n)%nat -> (length s <= m)%nat ->
  findall_fuel n s = findall_fuel m s.
Proof.
  revert m s. induction n as [|n IH]; intros m s Hn Hm.
  - destruct s; [| simpl in Hn; lia]. destruct m; reflexivity.
  - destruct s as [|c rest]; [destruct m; reflexivity |].
    destruct m as [|m]; [simpl in Hm; lia |]. simpl in Hn, Hm. simpl.
    destruct (is_plain c).
    + pose proof (span_length is_plain rest) as Hlen.
      destruct (span is_plain rest) as [run rest']. simpl in Hlen.
      f_equal. apply IH; lia.
    + destruct (is_quote c); [| apply IH; lia].
      destruct (split_first c rest) as [[inner rest']|] eqn:Hsplit;
        [| apply IH; lia].
      apply split_first_length in Hsplit. f_equal. apply IH; lia.
Qed.

(** The scan, one match at a time. *)
Lemma findall_cons (c : pychar) (rest : pystr) :
  findall (c :: rest)
  = if is_plain c then
      let (run, rest') := span is_plain rest in (c :: run) :: findall rest'
    else if is_quote c then
      match split_first c rest with
      | Some (inner, rest') => (c :: inner ++ [c]) :: findall rest'
      | None => findall rest
      end
    else findall rest.
Proof.
  unfold findall. simpl.
  destruct (is_plain c).
  - pose proof (span_length is_plain rest) as Hlen.
    destruct (span is_plain rest) as [run rest']. simpl in Hlen.
    f_equal. apply findall_fuel_enough; lia.
  - destruct (is_quote c); [| reflexivity].
    destruct (split_first c rest) as [[inner rest']|] eqn:Hsplit;
      [| reflexivity].
    apply split_first_length in Hsplit. f_equal.
    apply findall_fuel_enough; lia.
Qed.

Lemma span_app (p : pychar -> bool) (run rest : pystr) :
  all_of p run -> clean_left p rest -> span p (run ++ rest) = (run, rest).
Proof.
  induction 1 as [|c run Hc _ IH]; intros Hrest; simpl.
  - destruct rest as [|c rest]; [reflexivity |]. simpl in *.
    rewrite Hrest. reflexivity.
  - rewrite Hc, IH by assumption. reflexivity.
Qed.

Lemma not_elem_clean_left (q : pychar) (s : pystr) :
  (q ∉ s) -> clean_left (is_char q) s.
Proof.
  destruct s as [|c s]; [intros; exact I |]. simpl. intros Hq.
  apply not_elem_of_cons in Hq as [Hc _]. unfold is_char.
  apply N.eqb_neq. congruence.
Qed.

Lemma not_elem_clean_right (q : pychar) (s : pystr) :
  (q ∉ s) -> clean_right (is_char q) s.
Proof.
  intros Hq. apply not_elem_clean_left. intros Hin. apply Hq.
  rewrite list_elem_of_In in *. apply in_rev. assumption.
Qed.

Lemma plain_not_quote (q : pychar) (s : pystr) :
  is_quote q = true -> all_of is_plain s -> (q ∉ s).
Proof.
  intros Hq Hs Hin. unfold all_of in Hs. rewrite Forall_forall in Hs.
  specialize (Hs _ Hin). unfold is_plain, is_quote in *.
  destruct (is_char DQ q), (is_char SQ q); simpl in *;
    try discriminate; rewrite ?andb_false_r in Hs; discriminate.
Qed.

(** A quoted span without its quotes. *)
Lemma strip_quoted (q : pychar) (inner : pystr) :
  (q ∉ inner) -> strip (is_char q) (q :: inner ++ [q]) = inner.
Proof.
  intros Hq. apply (strip_between (is_char q) [q] inner [q]).
  - repeat constructor. apply N.eqb_refl.
  - repeat constructor. apply N.eqb_refl.
  - apply not_elem_clean_left. assumption.
  - apply not_elem_clean_right. assumption.
Qed.

Lemma strip_quotes_plain (run : pystr) :
  all_of is_plain run -> strip_quotes run = run.
Proof.
  intros Hrun. unfold strip_quotes.
  rewrite (strip_id (is_char DQ) run).
  - apply strip_id.
    + apply not_elem_clean_left. apply plain_not_quote; [reflexivity | assumption].
    + apply not_elem_clean_right. apply plain_not_quote; [reflexivity | assumption].
  - apply not_elem_clean_left. apply plain_not_quote; [reflexivity | assumption].
  - apply not_elem_clean_right. apply plain_not_quote; [reflexivity | assumption].
Qed.

Lemma strip_quotes_double (inner : pystr) :
  (DQ ∉ inner) -> strip_quotes (DQ :: inner ++ [DQ]) = strip (is_char SQ) inner.
Proof. intros Hq. unfold strip_quotes. rewrite strip_quoted by assumption. reflexivity. Qed.

Lemma strip_quotes_single (inner : pystr) :
  (SQ ∉ inner) -> strip_quotes (SQ :: inner ++ [SQ]) = inner.
Proof.
  intros Hq. unfold strip_quotes.
  rewrite (strip_id (is_char DQ)).
  - apply strip_quoted. assumption.
  - reflexivity.
  - unfold clean_right. simpl. rewrite rev_app_distr. reflexivity.
Qed.

Lemma space_not_quote (c : pychar) : is_space c = true -> is_quote c = false.
Proof.
  intros Hc. unfold is_quote, is_char.
  destruct (N.eqb_spec c DQ) as [-> | _]; [discriminate Hc |].
  destruct (N.eqb_spec c SQ) as [-> | _]; [discriminate Hc |]. reflexivity.
Qed.

Lemma quote_not_plain (q : pychar) : is_quote q = true -> is_plain q = false.
Proof.
  unfold is_quote, is_plain.
  destruct (is_char DQ q), (is_char SQ q); simpl; intros H;
    rewrite ?andb_false_r; try reflexivity; discriminate H.
Qed.

(** C9, as the code has it: the scan skips whitespace; a run of characters
    that are neither whitespace nor quotes, as long as it can be, is one
    token; a double-quoted span is one token, its content without the
    single quotes at its two ends; a single-quoted span is one token, its
    content as it is; a quote with no closing quote after it is skipped. *)
Theorem parse_command_parts_tokens :
  parse_command_parts [] = []
  /\ (forall (c : pychar) (s : pystr),
        is_space c = true ->
        parse_command_parts (c :: s) = parse_command_parts s)
  /\ (forall run rest : pystr,
        run <> [] -> all_of is_plain run -> clean_left is_plain rest ->
        parse_command_parts (run ++ rest) = run :: parse_command_parts rest)
  /\ (forall inner rest : pystr,
        (DQ ∉ inner) ->
        parse_command_parts (DQ :: inner ++ DQ :: rest)
        = strip (is_char SQ) inner :: parse_command_parts rest)
  /\ (forall inner rest : pystr,
        (SQ ∉ inner) ->
        parse_command_parts (SQ :: inner ++ SQ :: rest)
        = inner :: parse_command_parts rest)
  /\ (forall (q : pychar) (rest : pystr),
        is_quote q = true -> (q ∉ rest) ->
        parse_command_parts (q :: rest) = parse_command_parts rest).
Proof.
  unfold parse_command_parts. repeat split.
  - intros c s Hc. rewrite findall_cons.
    unfold is_plain. rewrite Hc. simpl.
    rewrite (space_not_quote c Hc). reflexivity.
  - intros run rest Hne Hrun Hrest.
    destruct run as [|c run]; [congruence |]. simpl app.
    rewrite findall_cons. pose proof Hrun as Hall.
    apply Forall_cons in Hrun as [Hc Hrun]. rewrite Hc.
    rewrite span_app by assumption. rewrite fmap_cons.
    rewrite strip_quotes_plain by assumption. reflexivity.
  - intros inner rest Hq. rewrite findall_cons.
    rewrite split_first_app by assumption.
    change (is_plain DQ) with false. change (is_quote DQ) with true.
    cbv iota. rewrite fmap_cons, strip_quotes_double by assumption.
    reflexivity.
  - intros inner rest Hq. rewrite findall_cons.
    rewrite split_first_app by assumption.
    change (is_plain SQ) with false. change (is_quote SQ) with true.
    cbv iota. rewrite fmap_cons, strip_quotes_single by assumption.
    reflexivity.
  - intros q rest Hq Hrest. rewrite findall_cons.
    rewrite (quote_not_plain q Hq), Hq.
    rewrite split_first_none by assumption. reflexivity.
Qed.

(** One instance of each case: a leading space; the word [ab] before a
    space; [c d] in double quotes; [e], a double quote and [f] in single
    quotes; a double quote that is never closed before the word [g]. *)
Lemma parse_command_parts_tokens_witness :
  parse_command_parts (32 :: str "ab") = parse_command_parts (str "ab")
  /\ parse_command_parts (str "ab" ++ [32]) = str "ab" :: parse_command_parts [32]
  /\ parse_command_parts (DQ :: str "c d" ++ DQ :: [])
     = strip (is_char SQ) (str "c d") :: parse_command_parts []
  /\ parse_command_parts (SQ :: [101; DQ; 102] ++ SQ :: [])
     = [101; DQ; 102] :: parse_command_parts []
  /\ parse_command_parts (DQ :: str "g") = parse_command_parts (str "g").
Proof.
  destruct parse_command_parts_tokens
    as (Hnil & Hspace & Hrun & Hdq & Hsq & Hopen).
  split; [| split; [| split; [| split]]].
  - apply Hspace. reflexivity.
  - apply Hrun; [discriminate | repeat constructor | reflexivity].
  - apply Hdq. by_evaluation.
  - apply Hsq. by_evaluation.
  - apply Hopen; [reflexivity |].
    by_evaluation.
Defined.

Example parse_command_parts_four_parts :
  parse_command_parts
    (str "ab" ++ [32] ++ [DQ] ++ str "c d" ++ DQ :: [32] ++ [SQ]
       ++ [101; DQ; 102] ++ SQ :: [32] ++ DQ :: str "g")
  = [str "ab"; str "c d"; [101; DQ; 102]; str "g"].
Proof. vm_compute. reflexivity. Qed.

(** A double-quoted span loses the single quotes at the ends of its
    content: the letter [a] in single quotes inside double quotes gives
    [a] without the single quotes.  A run ends at a quote although no
    whitespace is there: [a] followed by [b] in double quotes gives the two
    tokens [a] and [b]. *)
Lemma parse_command_parts_nested_quotes :
  parse_command_parts [DQ; SQ; 97; SQ; DQ] = [[97]]
  /\ parse_command_parts [DQ; SQ; 97; SQ; DQ] <> [[SQ; 97; SQ]]
  /\ parse_command_parts [97; DQ; 98; DQ] = [[97]; [98]].
Proof.
  split; [vm_compute; reflexivity |].
  split; [vm_compute; discriminate | vm_compute; reflexivity].
Qed.

(** * Further properties *)

(** ** Value coercion: what wraps a value *)

Lemma strip_around (p : pychar -> bool) (a s b : pystr) :
  all_of p a -> all_of p b -> strip p (a ++ s ++ b) = strip p s.
Proof.
  intros Ha Hb.
  destruct (strip_spec p s) as (a' & b' & Hs & Ha' & Hb' & Hl & Hr).
  remember (strip p s) as u eqn:Hu. rewrite Hs.
  replace (a ++ (a' ++ u ++ b') ++ b) with ((a ++ a') ++ u ++ (b' ++ b))
    by (rewrite <- !app_assoc; reflexivity).
  apply strip_between; try assumption; apply Forall_app; split; assumption.
Qed.

Lemma parse_value_unquote (x y ty : pystr) :
  unquote x = unquote y -> parse_value x ty = parse_value y ty.
Proof. unfold parse_value. intros ->. reflexivity. Qed.

Lemma clean_left_app2 (p : pychar -> bool) (x y : pystr) :
  clean_left p x -> clean_left p y -> clean_left p (x ++ y).
Proof. destruct x; simpl; auto. Qed.

Lemma clean_right_app2 (p : pychar -> bool) (x y : pystr) :
  clean_right p x -> clean_right p y -> clean_right p (x ++ y).
Proof.
  unfold clean_right. rewrite rev_app_distr. intros Hx Hy.
  apply clean_left_app2; assumption.
Qed.

Lemma clean_left_weaken (p q : pychar -> bool) (s : pystr) :
  (forall c, q c = false -> p c = false) -> clean_left q s -> clean_left p s.
Proof. destruct s; simpl; auto. Qed.

Lemma all_of_char_clean (p : pychar -> bool) (q : pychar) (x : pystr) :
  p q = false -> all_of (is_char q) x -> clean_left p x /\ clean_right p x.
Proof.
  intros Hq Hx.
  assert (Hleft : forall y, all_of (is_char q) y -> clean_left p y).
  { intros [|c y] Hy; [exact I |]. simpl.
    apply Forall_cons in Hy as [Hc _]. apply N.eqb_eq in Hc. congruence. }
  split; [apply Hleft; assumption |].
  apply Hleft. apply all_of_rev. assumption.
Qed.

Lemma is_wrap_false (c : pychar) :
  is_wrap c = false ->
  is_space c = false /\ is_char DQ c = false /\ is_char SQ c = false.
Proof.
  unfold is_wrap, is_quote.
  destruct (is_space c), (is_char DQ c), (is_char SQ c); simpl;
    intros H; try discriminate H; repeat split.
Qed.

Lemma bare_clean (s : pystr) (p : pychar -> bool) :
  (forall c, is_wrap c = false -> p c = false) ->
  bare s -> clean_left p s /\ clean_right p s.
Proof.
  intros Hp [Hl Hr]. split; eapply clean_left_weaken; eassumption.
Qed.

Lemma bare_unquote (s : pystr) : bare s -> unquote s = s.
Proof.
  intros Hs. unfold unquote.
  destruct (bare_clean s is_space) as [? ?];
    [intros c Hc; apply is_wrap_false in Hc; tauto | assumption |].
  destruct (bare_clean s (is_char DQ)) as [? ?];
    [intros c Hc; apply is_wrap_false in Hc; tauto | assumption |].
  destruct (bare_clean s (is_char SQ)) as [? ?];
    [intros c Hc; apply is_wrap_false in Hc; tauto | assumption |].
  rewrite (strip_id is_space), (strip_id (is_char DQ)) by assumption.
  apply strip_id; assumption.
Qed.

(** X1: whitespace around a value never matters: with any whitespace
    before and after, [parse_value] gives the same result, value or error,
    for every column type. *)
Theorem parse_value_ignores_whitespace (w1 s w2 ty : pystr) :
  all_of is_space w1 -> all_of is_space w2 ->
  parse_value (w1 ++ s ++ w2) ty = parse_value s ty.
Proof.
  intros H1 H2. apply parse_value_unquote. unfold unquote.
  rewrite strip_around by assumption. reflexivity.
Qed.

Lemma parse_value_ignores_whitespace_witness :
  parse_value ([32; 9] ++ str "-12" ++ [32]) T_INT = parse_value (str "-12") T_INT.
Proof.
  apply parse_value_ignores_whitespace; repeat constructor.
Defined.

(** X2: a value with no whitespace and no quote at either end is coerced as
    it is, and any number of double quotes around any number of single
    quotes around it, paired or not, changes nothing: as text the result is
    the value itself, and every type gives what the value alone gives. *)
Theorem parse_value_unwraps (d1 q1 s q2 d2 : pystr) :
  bare s ->
  all_of (is_char DQ) d1 -> all_of (is_char DQ) d2 ->
  all_of (is_char SQ) q1 -> all_of (is_char SQ) q2 ->
  parse_value (d1 ++ (q1 ++ s ++ q2) ++ d2) T_STR = Ok (VStr s)
  /\ forall ty, parse_value (d1 ++ (q1 ++ s ++ q2) ++ d2) ty = parse_value s ty.
Proof.
  intros Hs Hd1 Hd2 Hq1 Hq2.
  assert (Hun : unquote (d1 ++ (q1 ++ s ++ q2) ++ d2) = s).
  { destruct (bare_clean s is_space) as [Hsl Hsr];
      [intros c Hc; apply is_wrap_false in Hc; tauto | assumption |].
    destruct (bare_clean s (is_char DQ)) as [Hdl Hdr];
      [intros c Hc; apply is_wrap_false in Hc; tauto | assumption |].
    destruct (bare_clean s (is_char SQ)) as [Hql Hqr];
      [intros c Hc; apply is_wrap_false in Hc; tauto | assumption |].
    destruct (all_of_char_clean is_space DQ d1 eq_refl Hd1) as [? ?].
    destruct (all_of_char_clean is_space DQ d2 eq_refl Hd2) as [? ?].
    destruct (all_of_char_clean is_space SQ q1 eq_refl Hq1) as [? ?].
    destruct (all_of_char_clean is_space SQ q2 eq_refl Hq2) as [? ?].
    destruct (all_of_char_clean (is_char DQ) SQ q1 eq_refl Hq1) as [? ?].
    destruct (all_of_char_clean (is_char DQ) SQ q2 eq_refl Hq2) as [? ?].
    unfold unquote.
    rewrite (strip_id is_space).
    - rewrite strip_between; try assumption.
      + apply strip_between; assumption.
      + repeat apply clean_left_app2; assumption.
      + repeat apply clean_right_app2; assumption.
    - repeat apply clean_left_app2; assumption.
    - repeat apply clean_right_app2; assumption. }
  split.
  - unfold parse_value. rewrite Hun. reflexivity.
  - intros ty. apply parse_value_unquote. rewrite Hun.
    symmetry. apply bare_unquote. assumption.
Qed.

Lemma bare_Ann : bare (str "Ann").
Proof. split; reflexivity. Defined.

Lemma parse_value_unwraps_witness :
  parse_value ([DQ] ++ ([SQ; SQ] ++ str "Ann" ++ []) ++ [DQ; DQ]) T_STR
  = Ok (VStr (str "Ann")).
Proof.
  apply (parse_value_unwraps [DQ] [SQ; SQ] (str "Ann") [] [DQ; DQ]).
  - exact bare_Ann.
  - repeat constructor.
  - repeat constructor.
  - repeat constructor.
  - constructor.
Defined.

(** ** Schema manager: when [create_table] succeeds *)

Lemma split_first_inv (q : pychar) (s a b : pystr) :
  split_first q s = Some (a, b) -> s = a ++ q :: b /\ (q ∉ a).
Proof.
  revert a. induction s as [|c s IH]; intros a; simpl; [discriminate |].
  destruct (N.eqb_spec c q) as [-> | Hne].
  - intros [= <- <-]. split; [reflexivity | apply not_elem_of_nil].
  - destruct (split_first q s) as [[a' b']|]; [| discriminate].
    intros [= <- <-]. destruct (IH a' eq_refl) as [-> Hq].
    split; [reflexivity |]. apply not_elem_of_cons. split; [congruence | assumption].
Qed.

Lemma parse_column_inv (spec : pystr) (c : column) :
  parse_column spec = Ok c -> spec_column spec c.
Proof.
  unfold parse_column. destruct (negb (contains COLON spec)); [discriminate |].
  destruct (split_first COLON spec) as [[name ty]|] eqn:Hsplit; [| discriminate].
  apply split_first_inv in Hsplit as [-> Hname].
  case_bool_decide as Hty; [| discriminate].
  intros [= <-]. exists name, ty. repeat split; assumption.
Qed.

Lemma parse_columns_inv (specs : list pystr) (cols : list column) :
  parse_columns specs = Ok cols -> Forall2 spec_column specs cols.
Proof.
  revert cols. induction specs as [|spec specs IH]; intros cols; simpl.
  - intros [= <-]. constructor.
  - destruct (parse_column spec) as [e|c] eqn:Hc; [discriminate |].
    destruct (parse_columns specs) as [e|cs]; [discriminate |].
    intros [= <-]. constructor; [apply parse_column_inv; assumption |].
    apply IH. reflexivity.
Qed.

(** X3: [create_table] succeeds exactly when the table is not there yet and
    every spec is well formed; whatever it is given, it reads and writes no
    record document. *)
Theorem create_table_succeeds_iff (md : metadata) (t : pystr)
    (specs : list pystr) (w : world) :
  ((exists md', fst (create_table md t specs w) = Ok md')
   <-> md !! t = None /\ Forall (fun spec => exists c, spec_column spec c) specs)
  /\ snd (create_table md t specs w) = w.
Proof.
  unfold create_table. destruct (md !! t) as [cols|] eqn:Hmd.
  - split; [| reflexivity]. split.
    + intros [md' H]. discriminate H.
    + intros [H _]. discriminate H.
  - unfold bind, lift, ret.
    destruct (parse_columns specs) as [e|cols] eqn:Hparse.
    + split; [| reflexivity]. split.
      * intros [md' H]. discriminate H.
      * intros [_ Hall]. exfalso.
        assert (Hex : exists cols, Forall2 spec_column specs cols).
        { clear Hparse. induction Hall as [|spec specs [c Hc] _ [cs Hcs]].
          - exists []. constructor.
          - exists (c :: cs). constructor; assumption. }
        destruct Hex as [cols Hcols].
        rewrite (parse_columns_ok _ _ Hcols) in Hparse. discriminate Hparse.
    + split; [| reflexivity]. split.
      * intros _. split; [reflexivity |].
        apply parse_columns_inv in Hparse.
        induction Hparse as [|spec c specs cols Hc _ IH]; constructor.
        -- exists c. assumption.
        -- assumption.
      * intros _. eexists. reflexivity.
Qed.

Lemma create_table_succeeds_iff_witness :
  exists md', fst (create_table ∅ users users_specs (disk [])) = Ok md'.
Proof.
  destruct (create_table_succeeds_iff ∅ users users_specs (disk []))
    as [[_ Hok] _].
  apply Hok. split; [reflexivity |].
  pose proof users_specs_well_formed as Hwf.
  unfold users_specs, users_columns in *.
  repeat match goal with
         | H : Forall2 _ (_ :: _) _ |- _ =>
             apply Forall2_cons_1 in H as [? H]
         end.
  repeat constructor; eexists; eassumption.
Defined.

(** X4: the first spec that is not well formed decides the error of
    [create_table]: a spec without a colon gives the format error for that
    spec, a spec whose type is not valid gives the type error for that type
    (trimmed); the specs after it are not looked at. *)
Theorem create_table_first_bad_spec (md : metadata) (t : pystr)
    (good : list pystr) (cols : list column) (bad : pystr)
    (rest : list pystr) (w : world) :
  md !! t = None ->
  Forall2 spec_column good cols ->
  ((COLON ∉ bad) ->
   create_table md t (good ++ bad :: rest) w = (Err (BadColumnFormat bad), w))
  /\ (forall name ty,
        bad = name ++ COLON :: ty -> (COLON ∉ name) ->
        (strip is_space ty ∉ VALID_TYPES) ->
        create_table md t (good ++ bad :: rest) w
        = (Err (InvalidType (strip is_space ty)), w)).
Proof.
  intros Hmd Hgood.
  assert (Hrun : forall e, parse_column bad = Err e ->
                 create_table md t (good ++ bad :: rest) w = (Err e, w)).
  { intros e Hbad. unfold create_table. rewrite Hmd. unfold bind, lift.
    assert (Hparse : parse_columns (good ++ bad :: rest) = Err e).
    { clear Hmd. induction Hgood as [|spec c good cols Hc _ IH]; simpl.
      - rewrite Hbad. reflexivity.
      - rewrite (parse_column_ok _ _ Hc), IH. reflexivity. }
    rewrite Hparse. reflexivity. }
  split.
  - intros Hcolon. apply Hrun. unfold parse_column.
    assert (Hc : contains COLON bad = false).
    { unfold contains. apply not_true_is_false. intros Hex.
      apply existsb_exists in Hex as (c & Hin & Hc). apply N.eqb_eq in Hc.
      subst c. apply Hcolon. apply list_elem_of_In. assumption. }
    rewrite Hc. reflexivity.
  - intros name ty -> Hname Hty. apply Hrun. unfold parse_column.
    rewrite contains_app. simpl negb. cbv iota.
    rewrite split_first_app by assumption.
    rewrite bool_decide_eq_false_2 by assumption. reflexivity.
Qed.

Lemma create_table_first_bad_spec_witness :
  create_table ∅ users (users_specs ++ str "note" :: [str "x:float"]) (disk [])
  = (Err (BadColumnFormat (str "note")), disk [])
  /\ create_table ∅ users (users_specs ++ str "x: float " :: [str "note"]) (disk [])
     = (Err (InvalidType (str "float")), disk []).
Proof.
  split.
  - apply (create_table_first_bad_spec ∅ users users_specs users_columns
             (str "note") [str "x:float"] (disk []));
      [reflexivity | exact users_specs_well_formed | by_evaluation].
  - destruct (create_table_first_bad_spec ∅ users users_specs users_columns
                (str "x: float ") [str "note"] (disk [])) as [_ Htype];
      [reflexivity | exact users_specs_well_formed |].
    apply (Htype (str "x") (str " float ")).
    + reflexivity.
    + by_evaluation.
    + by_evaluation.
Defined.

(** ** Schema manager: create, describe, drop *)

Lemma create_table_inv (md md' : metadata) (t : pystr) (specs : list pystr)
    (w w' : world) :
  create_table md t specs w = (Ok md', w') ->
  exists cols,
    md !! t = None /\ Forall2 spec_column specs cols
    /\ md' = <[t := ID_COLUMN :: cols]> md /\ w' = w.
Proof.
  unfold create_table. destruct (md !! t) as [old|]; [discriminate |].
  unfold bind, lift, ret.
  destruct (parse_columns specs) as [e|cols] eqn:Hparse; [discriminate |].
  intros [= <- <-]. exists cols. repeat split.
  apply parse_columns_inv. assumption.
Qed.

(** X5: once a table has been created, creating it again fails with the
    message that it exists, whatever the specs; dropping it gives back the
    registry from before the creation; and the creation has changed the
    definition of no other table. *)
Theorem create_table_then (md md' : metadata) (t : pystr)
    (specs : list pystr) (w w' : world) :
  create_table md t specs w = (Ok md', w') ->
  (forall specs' w'', create_table md' t specs' w'' = (Err (TableExists t), w''))
  /\ (forall w'', drop_table md' t w'' = (Ok md, w''))
  /\ (forall t', t' <> t -> md' !! t' = md !! t').
Proof.
  intros Hcreate.
  apply create_table_inv in Hcreate as (cols & Hmd & _ & -> & _).
  split; [| split].
  - intros specs' w''. unfold create_table.
    rewrite lookup_insert_eq. reflexivity.
  - intros w''. unfold drop_table. rewrite lookup_insert_eq.
    rewrite delete_insert_id by assumption. reflexivity.
  - intros t' Hne. apply lookup_insert_ne. congruence.
Qed.

Lemma create_table_then_witness :
  create_table users_md users [str "x:int"] (disk [])
  = (Err (TableExists users), disk [])
  /\ drop_table users_md users (disk []) = (Ok ∅, disk []).
Proof.
  destruct (create_table_then ∅ users_md users users_specs (disk []) (disk []))
    as (Hagain & Hdrop & _).
  - vm_compute. reflexivity.
  - split; [apply Hagain | apply Hdrop].
Defined.

Lemma strip_idem (p : pychar -> bool) (s : pystr) :
  strip p (strip p s) = strip p s.
Proof.
  destruct (strip_spec p s) as (a & b & _ & _ & _ & Hl & Hr).
  apply strip_id; assumption.
Qed.

Lemma strip_elem_of (p : pychar -> bool) (s : pystr) (c : pychar) :
  c ∈ strip p s -> c ∈ s.
Proof.
  destruct (strip_spec p s) as (a & b & Hs & _). intros Hc.
  rewrite Hs. rewrite !elem_of_app. right. left. assumption.
Qed.

(** A column that a spec stands for is written back by [render_column] as a
    spec that stands for the same column. *)
Lemma render_column_spec (spec : pystr) (c : column) :
  spec_column spec c -> spec_column (render_column c) c.
Proof.
  intros (name & ty & _ & Hname & Hty & ->). unfold render_column. simpl.
  exists (strip is_space name), (strip is_space ty).
  rewrite !strip_idem. repeat split; [| assumption].
  intros Hin. apply Hname. eapply strip_elem_of. eassumption.
Qed.

(** X6: the description that [info_table] gives of a created table is the
    table name and the texts [name:type] of the column [ID:int] and of the
    columns of the specs, joined by a comma and a space; read again as
    specs, the texts of the user columns stand for the same columns. *)
Theorem info_table_of_created (md md' : metadata) (t : pystr)
    (specs : list pystr) (w w' : world) :
  create_table md t specs w = (Ok md', w') ->
  exists cols,
    info_table md' t w'
    = (Ok (t, join (str ", ") (str "ID:int" :: (render_column <$> cols))), w')
    /\ Forall2 spec_column specs cols
    /\ parse_columns (render_column <$> cols) = Ok cols.
Proof.
  intros Hcreate.
  apply create_table_inv in Hcreate as (cols & _ & Hspecs & -> & _).
  exists cols. split; [| split].
  - unfold info_table. rewrite lookup_insert_eq. reflexivity.
  - assumption.
  - apply parse_columns_ok.
    clear -Hspecs. induction Hspecs as [|spec c specs cols Hc _ IH]; simpl.
    + constructor.
    + constructor; [eapply render_column_spec; eassumption | assumption].
Qed.

Lemma info_table_of_created_witness :
  info_table users_md users (disk [])
  = (Ok (users, str "ID:int, name:str, age:int, active:bool"), disk []).
Proof.
  destruct (info_table_of_created ∅ users_md users users_specs (disk [])
              (disk [])) as (cols & Hinfo & Hspecs & _).
  - vm_compute. reflexivity.
  - rewrite Hinfo.
    assert (Hcols : cols = users_columns).
    { pose proof (parse_columns_ok _ _ Hspecs) as H1.
      pose proof (parse_columns_ok _ _ users_specs_well_formed) as H2.
      rewrite H1 in H2. injection H2 as ->. reflexivity. }
    rewrite Hcols. vm_compute. reflexivity.
Defined.

(** ** The footprint of the record engine *)

(** Unfolding of the monad, to follow an operation branch by branch. *)
Ltac unfold_M :=
  unfold bind, lift, ret, raise, load_table_data, save_table_data, Ok, Err in *.

(** X9: the errors of the record engine come before the save: when
    [insert_into], [update_table] or [delete_from] raises one of its errors
    (unknown table or column, arity, a value that does not coerce, a record
    without a usable [ID]), [save_table_data] has not been called and every
    document is as it was. *)
Theorem record_engine_failure_saves_nothing (md : metadata) (t : pystr)
    (w : world) (e : error) :
  (forall values,
      fst (insert_into md t values w) = Err e ->
      tables (snd (insert_into md t values w)) = tables w)
  /\ (forall sc sv wc wv,
        fst (update_table md t sc sv wc wv w) = Err e ->
        tables (snd (update_table md t sc sv wc wv w)) = tables w)
  /\ (forall wc wv,
        fst (delete_from md t wc wv w) = Err e ->
        tables (snd (delete_from md t wc wv w)) = tables w).
Proof.
  split; [| split].
  - intros values. unfold insert_into.
    destruct (md !! t) as [columns|]; [| reflexivity].
    destruct (negb _); [reflexivity |]. unfold_M.
    destruct (next_id _) as [e'|n]; [reflexivity |].
    destruct (fill_record _ _ _) as [e'|rec]; [reflexivity |].
    simpl. discriminate.
  - intros sc sv wc wv. unfold update_table.
    destruct (md !! t) as [columns|]; [| reflexivity]. unfold_M.
    destruct (type_of_last columns sc) as [sty|]; [| reflexivity].
    destruct (type_of_last columns wc) as [wty|]; [| reflexivity].
    destruct (parse_value sv sty) as [e'|psv]; [reflexivity |].
    destruct (parse_value wv wty) as [e'|pwv]; [reflexivity |].
    destruct (update_loop _ _ _ _ _) as [e'|[d [|i ids]]]; try reflexivity.
    simpl. discriminate.
  - intros wc wv. unfold delete_from.
    destruct (md !! t) as [columns|]; [| reflexivity]. unfold_M.
    destruct (type_of_first columns wc) as [wty|]; [| reflexivity].
    destruct (parse_value wv wty) as [e'|pwv]; [reflexivity |].
    destruct (delete_loop _ _ _) as [e'|[d [|i ids]]]; try reflexivity.
    simpl. discriminate.
Qed.

(** A value that does not coerce in the second column: the insert fails
    for the column [age] and the document keeps its one record. *)
Lemma record_engine_failure_saves_nothing_witness :
  fst (insert_into users_md users [str "Bob"; str "old"; str "no"] (disk [ann]))
  = Err (InColumn AGE (CannotConvert (str "old") T_INT))
  /\ tables (snd (insert_into users_md users [str "Bob"; str "old"; str "no"]
                    (disk [ann])))
     = tables (disk [ann]).
Proof.
  assert (Hfail : fst (insert_into users_md users
                         [str "Bob"; str "old"; str "no"] (disk [ann]))
                  = Err (InColumn AGE (CannotConvert (str "old") T_INT)))
    by (vm_compute; reflexivity).
  split; [exact Hfail |].
  destruct (record_engine_failure_saves_nothing users_md users (disk [ann])
              (InColumn AGE (CannotConvert (str "old") T_INT)))
    as (Hins & _ & _).
  apply Hins. exact Hfail.
Defined.

(** X10: [select_from] only reads: whatever the table, the predicate and
    the outcome, every document is as it was, and the log has gained at most
    the load of the table. *)
Theorem select_from_only_reads (md : metadata) (t : pystr)
    (wc wv : option pystr) (w : world) :
  tables (snd (select_from md t wc wv w)) = tables w
  /\ (log (snd (select_from md t wc wv w)) = log w
      \/ log (snd (select_from md t wc wv w)) = log w ++ [Load t]).
Proof.
  unfold select_from. destruct (md !! t) as [columns|];
    [| split; [reflexivity | left; reflexivity]].
  unfold_M.
  destruct wc as [wc|], wv as [wv|];
    try (split; [reflexivity | right; reflexivity]).
  destruct (truthy (Some wc) && truthy (Some wv));
    [| split; [reflexivity | right; reflexivity]].
  destruct (type_of_first columns wc) as [ty|];
    [| split; [reflexivity | right; reflexivity]].
  destruct (parse_value wv ty) as [e|pv];
    split; try reflexivity; right; reflexivity.
Qed.

(** ** Record engine: what an insert stores *)

Lemma parse_value_has_type (v ty : pystr) (x : value) :
  parse_value v ty = Ok x -> has_type x ty.
Proof.
  unfold parse_value. repeat case_bool_decide; subst.
  - destruct (py_int _); intros [= <-]; reflexivity.
  - intros [= <-]. reflexivity.
  - intros [= <-]. reflexivity.
  - intros [= <-]. reflexivity.
  - discriminate.
  - discriminate.
Qed.

Lemma insert_into_ok (md : metadata) (t : pystr) (columns : list column)
    (values : list pystr) (w : world) (ids : list Z) (rec : record) :
  md !! t = Some columns ->
  length values = length (user_columns_of columns) ->
  ids_of (stored w t) = Some ids ->
  fill_record (user_columns_of columns) values {[ID := VInt (next ids)]} = Ok rec ->
  insert_into md t values w
  = (Ok (next ids), saved (loaded w t) t (stored w t ++ [rec])).
Proof.
  intros Hmd Hlen Hids Hfill. unfold insert_into. rewrite Hmd.
  rewrite Hlen, Nat.eqb_refl.
  pose proof (next_id_ok _ _ Hids) as Hnext.
  unfold bind, load_table_data, lift, ret, save_table_data.
  unfold stored, Ok in *. cbv beta iota delta [negb]. rewrite Hnext.
  cbv beta iota. rewrite Hfill. reflexivity.
Qed.

(** The record that the loop of [insert_into] builds, when no two of the
    columns have the same name: every column holds its coerced value and the
    other keys are as in the record the loop started from. *)
Lemma fill_record_content (cols : list column) (values : list pystr)
    (rec : record) :
  NoDup (names cols) ->
  Forall2 coercible cols values ->
  exists rec',
    fill_record cols values rec = Ok rec'
    /\ (forall k, (k ∉ names cols) -> rec' !! k = rec !! k)
    /\ Forall2 (fun col v =>
                  exists x, parse_value v (col_type col) = Ok x
                            /\ rec' !! col_name col = Some x
                            /\ has_type x (col_type col)) cols values.
Proof.
  intros Hnd Hco. revert rec.
  induction Hco as [|col v cols values [x Hx] _ IH]; intros rec; simpl.
  - exists rec. split; [reflexivity |]. split; [reflexivity | constructor].
  - apply NoDup_cons in Hnd as [Hcol Hnd]. rewrite Hx.
    destruct (IH Hnd (<[col_name col := x]> rec)) as (rec' & Hfill & Hkeep & Hall).
    exists rec'. split; [assumption |]. split.
    + intros k Hk. apply not_elem_of_cons in Hk as [Hne Hk].
      rewrite (Hkeep k Hk). apply lookup_insert_ne. congruence.
    + constructor; [| assumption].
      exists x. split; [assumption |]. split.
      * rewrite (Hkeep _ Hcol). apply lookup_insert_eq.
      * eapply parse_value_has_type. eassumption.
Qed.

Lemma user_columns_NoDup (columns : list column) :
  NoDup (names columns) -> NoDup (names (user_columns_of columns)).
Proof.
  unfold names, user_columns_of.
  induction columns as [|col columns IH]; intros Hnd; [constructor |].
  rewrite fmap_cons in Hnd. apply NoDup_cons in Hnd as [Hcol Hnd].
  destruct (decide (col_name col <> ID)) as [Hne | Heq].
  - rewrite filter_cons_True by assumption. rewrite fmap_cons.
    apply NoDup_cons. split; [| apply IH; assumption].
    intros Hin. apply Hcol. apply list_elem_of_fmap in Hin as (c & Hc & Hin).
    apply list_elem_of_filter in Hin as [_ Hin].
    apply list_elem_of_fmap. exists c. split; assumption.
  - rewrite filter_cons_False by assumption. apply IH. assumption.
Qed.

(** X11: on a table whose columns have distinct names, an insert followed
    by a select without predicate shows the old records and then the new
    one.  The new record holds the new ID under [ID] and, under each user
    column, the value coerced from the input, of the shape of the column
    type; it has no other key. *)
Theorem insert_then_select_all (md : metadata) (t : pystr)
    (columns : list column) (values : list pystr) (w : world) (ids : list Z) :
  md !! t = Some columns ->
  NoDup (names columns) ->
  Forall2 coercible (user_columns_of columns) values ->
  ids_of (stored w t) = Some ids ->
  exists rec,
    fst (insert_into md t values w) = Ok (next ids)
    /\ fst (select_from md t None None (snd (insert_into md t values w)))
       = Ok (stored w t ++ [rec])
    /\ rec !! ID = Some (VInt (next ids))
    /\ Forall2 (fun col v =>
                  exists x, parse_value v (col_type col) = Ok x
                            /\ rec !! col_name col = Some x
                            /\ has_type x (col_type col))
               (user_columns_of columns) values
    /\ (forall k, is_Some (rec !! k) ->
                  k = ID \/ k ∈ names (user_columns_of columns)).
Proof.
  intros Hmd Hnd Hco Hids.
  destruct (fill_record_content (user_columns_of columns) values
              {[ID := VInt (next ids)]} (user_columns_NoDup _ Hnd) Hco)
    as (rec & Hfill & Hkeep & Hall).
  assert (HID : (ID ∉ names (user_columns_of columns))).
  { intros Hin. apply list_elem_of_fmap in Hin as (col & Hname & Hcol).
    pose proof (user_columns_not_ID columns) as Hne.
    rewrite Forall_forall in Hne. apply (Hne col Hcol). congruence. }
  exists rec.
  rewrite (insert_into_ok md t columns values w ids rec Hmd
             (eq_sym (Forall2_length _ _ _ Hco)) Hids Hfill).
  simpl fst. simpl snd. split; [reflexivity |]. split; [| split; [| split]].
  - rewrite (select_from_all md t columns _ Hmd). simpl fst.
    rewrite stored_saved. apply shown_distinct. assumption.
  - rewrite (Hkeep ID HID). apply lookup_singleton_eq.
  - assumption.
  - intros k Hk.
    destruct (decide (k ∈ names (user_columns_of columns))) as [Hin|Hout];
      [right; assumption | left].
    rewrite (Hkeep k Hout) in Hk. destruct Hk as [x Hx].
    apply lookup_singleton_Some in Hx as [? _]. congruence.
Qed.

Lemma users_columns_NoDup : NoDup (names (ID_COLUMN :: users_columns)).
Proof. by_evaluation. Defined.

Lemma insert_then_select_all_witness :
  exists rec,
    fst (select_from users_md users None None
           (snd (insert_into users_md users row (disk [ann; bob]))))
    = Ok ([ann; bob] ++ [rec])
    /\ rec !! ID = Some (VInt 3).
Proof.
  destruct (insert_then_select_all users_md users (ID_COLUMN :: users_columns)
              row (disk [ann; bob]) [1; 2]%Z)
    as (rec & _ & Hsel & HID & _).
  - exact users_md_lookup.
  - exact users_columns_NoDup.
  - exact row_coercible.
  - vm_compute. reflexivity.
  - exists rec. split; [exact Hsel | exact HID].
Defined.

Lemma ids_of_snoc (data : list record) (ids : list Z) (rec : record) (i : Z) :
  ids_of data = Some ids -> id_of rec = Some i ->
  ids_of (data ++ [rec]) = Some (ids ++ [i]).
Proof.
  revert ids. induction data as [|r data IH]; intros ids; simpl.
  - intros [= <-] ->. reflexivity.
  - destruct (id_of r) as [j|]; [| discriminate].
    destruct (ids_of data) as [l|]; [| discriminate].
    intros [= <-] Hi. rewrite (IH l eq_refl Hi). reflexivity.
Qed.

(** X12: an insert keeps the IDs of a document numbers and pairwise
    distinct: if they are so before, the document after a successful insert
    has the same IDs followed by the new one, again pairwise distinct. *)
Theorem insert_into_keeps_IDs_distinct (md : metadata) (t : pystr)
    (columns : list column) (values : list pystr) (w : world) (ids : list Z) :
  md !! t = Some columns ->
  Forall2 coercible (user_columns_of columns) values ->
  ids_of (stored w t) = Some ids ->
  NoDup ids ->
  fst (insert_into md t values w) = Ok (next ids)
  /\ ids_of (stored (snd (insert_into md t values w)) t)
     = Some (ids ++ [next ids])
  /\ NoDup (ids ++ [next ids]).
Proof.
  intros Hmd Hco Hids Hnd.
  destruct (fill_record_ok (user_columns_of columns) values
              {[ID := VInt (next ids)]} (user_columns_not_ID columns) Hco)
    as (rec & Hfill & HID).
  rewrite (insert_into_ok md t columns values w ids rec Hmd
             (eq_sym (Forall2_length _ _ _ Hco)) Hids Hfill).
  simpl fst. simpl snd. split; [reflexivity |]. split.
  - rewrite stored_saved. apply ids_of_snoc; [assumption |].
    unfold id_of. rewrite HID, lookup_singleton_eq. reflexivity.
  - apply NoDup_app. split; [assumption |]. split; [| apply NoDup_singleton].
    intros i Hi Hnew. apply list_elem_of_singleton in Hnew. subst i.
    pose proof (next_above ids) as Habove. rewrite Forall_forall in Habove.
    specialize (Habove _ Hi). lia.
Qed.

Lemma insert_into_keeps_IDs_distinct_witness :
  ids_of (stored (snd (insert_into users_md users row (disk [ann; eve]))) users)
  = Some ([1; 3] ++ [4])%Z.
Proof.
  destruct (insert_into_keeps_IDs_distinct users_md users
              (ID_COLUMN :: users_columns) row (disk [ann; eve]) [1; 3]%Z)
    as (_ & Hids & _).
  - exact users_md_lookup.
  - exact row_coercible.
  - vm_compute. reflexivity.
  - by_evaluation.
  - exact Hids.
Defined.

(** ** Record engine: what an update writes *)

(** The last column called [c] decides the type that [update_table]
    coerces to. *)
Lemma type_of_last_app (pre post : list column) (c ty : pystr) :
  (c ∉ names post) -> type_of_last (pre ++ Column c ty :: post) c = Some ty.
Proof.
  intros Hpost. unfold type_of_last. rewrite foldl_app. simpl.
  rewrite bool_decide_eq_true_2 by reflexivity.
  generalize (Some ty) as acc. clear pre.
  induction post as [|col post IH]; intros acc; simpl; [reflexivity |].
  apply not_elem_of_cons in Hpost as [Hne Hpost].
  rewrite bool_decide_eq_false_2 by congruence. apply IH. assumption.
Qed.

Lemma has_ID_insert (r : record) (k : pystr) (x : value) :
  has_ID r -> has_ID (<[k := x]> r).
Proof.
  unfold has_ID. intros Hr. apply lookup_insert_is_Some.
  destruct (decide (k = ID)); [left; assumption | right; split; assumption].
Qed.

Lemma update_loop_spec (wc : pystr) (pwv : value) (sc : pystr) (psv : value)
    (data : list record) :
  Forall has_ID data ->
  exists ids,
    update_loop wc pwv sc psv data = Ok (updated wc pwv sc psv data, ids)
    /\ Forall2 (fun r i => <[sc := psv]> r !! ID = Some i)
               (filter (fun r => matches wc pwv r) data) ids.
Proof.
  induction 1 as [|r data Hr _ (ids & Hloop & Hids)]; simpl.
  - exists []. split; [reflexivity | constructor].
  - destruct (matches wc pwv r) eqn:Hm.
    + destruct (has_ID_insert r sc psv Hr) as [i Hi].
      rewrite Hi, Hloop. exists (i :: ids). split.
      * reflexivity.
      * rewrite filter_cons_True by (rewrite Hm; exact I).
        constructor; assumption.
    + rewrite Hloop. exists ids. split.
      * reflexivity.
      * rewrite filter_cons_False; [assumption |]. rewrite Hm. intros [].
Qed.

(** X13: an update on columns that the table has, with values that coerce
    to the types of the last columns of those names, over records that all
    have an [ID]: the matching records get the new value under the
    set-column and the others stay as they are, in the same order; the IDs
    reported are those of the matching records after the change; with no
    matching record nothing is saved. *)
Theorem update_table_sets (md : metadata) (t : pystr)
    (columns pre1 post1 pre2 post2 : list column)
    (sc sv sty wc wv wty : pystr) (psv pwv : value) (w : world) :
  md !! t = Some columns ->
  columns = pre1 ++ Column sc sty :: post1 -> (sc ∉ names post1) ->
  columns = pre2 ++ Column wc wty :: post2 -> (wc ∉ names post2) ->
  parse_value sv sty = Ok psv ->
  parse_value wv wty = Ok pwv ->
  Forall has_ID (stored w t) ->
  exists ids,
    update_table md t sc sv wc wv w
    = (Ok ids,
       if decide (ids = []) then loaded w t
       else saved (loaded w t) t (updated wc pwv sc psv (stored w t)))
    /\ Forall2 (fun r i => <[sc := psv]> r !! ID = Some i)
               (filter (fun r => matches wc pwv r) (stored w t)) ids
    /\ length (updated wc pwv sc psv (stored w t)) = length (stored w t).
Proof.
  intros Hmd Hsc Hpost1 Hwc Hpost2 Hpsv Hpwv HID.
  destruct (update_loop_spec wc pwv sc psv (stored w t) HID)
    as (ids & Hloop & Hids).
  exists ids. split; [| split].
  - assert (Hts : type_of_last columns sc = Some sty)
      by (rewrite Hsc; apply type_of_last_app; assumption).
    assert (Htw : type_of_last columns wc = Some wty)
      by (rewrite Hwc; apply type_of_last_app; assumption).
    unfold update_table. rewrite Hmd. unfold_M. cbv beta iota.
    rewrite Hts, Htw, Hpsv, Hpwv. unfold stored in Hloop. cbv beta iota.
    rewrite Hloop. destruct ids as [|i ids]; reflexivity.
  - assumption.
  - unfold updated. apply length_fmap.
Qed.

Lemma two_users_have_ID : Forall has_ID [ann; bob].
Proof.
  repeat constructor.
  - exists (VInt 1). vm_compute. reflexivity.
  - exists (VInt 2). vm_compute. reflexivity.
Defined.

(** The end-to-end step: the age of Ann becomes 31, Bob is untouched. *)
Lemma update_table_sets_witness :
  update_table users_md users AGE (str "31") NAME (str "Ann") (disk [ann; bob])
  = (Ok [VInt 1],
     saved (loaded (disk [ann; bob]) users) users
       [person 1 (str "Ann") 31 true; bob]).
Proof.
  destruct (update_table_sets users_md users (ID_COLUMN :: users_columns)
              [ID_COLUMN; Column NAME T_STR] [Column ACTIVE T_BOOL]
              [ID_COLUMN] [Column AGE T_INT; Column ACTIVE T_BOOL]
              AGE (str "31") T_INT NAME (str "Ann") T_STR
              (VInt 31) (VStr (str "Ann")) (disk [ann; bob]))
    as (ids & Hrun & _).
  - exact users_md_lookup.
  - reflexivity.
  - by_evaluation.
  - reflexivity.
  - by_evaluation.
  - vm_compute. reflexivity.
  - vm_compute. reflexivity.
  - exact two_users_have_ID.
  - vm_compute. reflexivity.
Defined.

Lemma updated_idem (wc : pystr) (pwv : value) (sc : pystr) (psv : value)
    (data : list record) :
  sc <> wc ->
  updated wc pwv sc psv (updated wc pwv sc psv data)
  = updated wc pwv sc psv data.
Proof.
  intros Hne. unfold updated. rewrite <- list_fmap_compose.
  apply list_fmap_ext. intros _ r _. simpl.
  destruct (matches wc pwv r) eqn:Hm.
  - assert (Hm' : matches wc pwv (<[sc := psv]> r) = true).
    { unfold matches in *. rewrite lookup_insert_ne by assumption. exact Hm. }
    rewrite Hm'. apply insert_insert_eq.
  - rewrite Hm. reflexivity.
Qed.

Lemma updated_has_ID (wc : pystr) (pwv : value) (sc : pystr) (psv : value)
    (data : list record) :
  Forall has_ID data -> Forall has_ID (updated wc pwv sc psv data).
Proof.
  unfold updated. intros H. apply Forall_fmap.
  eapply Forall_impl; [exact H |]. intros r Hr. simpl.
  destruct (matches wc pwv r); [apply has_ID_insert |]; assumption.
Qed.

(** X14: an update whose set-column is not its where-column can be
    repeated: run a second time on what the first run left, it succeeds and
    leaves the document of the table as the first run left it. *)
Theorem update_table_twice (md : metadata) (t : pystr)
    (columns pre1 post1 pre2 post2 : list column)
    (sc sv sty wc wv wty : pystr) (psv pwv : value) (w : world) :
  md !! t = Some columns ->
  columns = pre1 ++ Column sc sty :: post1 -> (sc ∉ names post1) ->
  columns = pre2 ++ Column wc wty :: post2 -> (wc ∉ names post2) ->
  parse_value sv sty = Ok psv ->
  parse_value wv wty = Ok pwv ->
  Forall has_ID (stored w t) ->
  sc <> wc ->
  let w1 := snd (update_table md t sc sv wc wv w) in
  let w2 := snd (update_table md t sc sv wc wv w1) in
  (exists ids, fst (update_table md t sc sv wc wv w1) = Ok ids)
  /\ stored w2 t = stored w1 t.
Proof.
  intros Hmd Hsc Hpost1 Hwc Hpost2 Hpsv Hpwv HID Hne w1 w2.
  destruct (update_table_sets md t columns pre1 post1 pre2 post2
              sc sv sty wc wv wty psv pwv w Hmd Hsc Hpost1 Hwc Hpost2
              Hpsv Hpwv HID) as (ids & Hrun & Hids & _).
  assert (Hw1 : stored w1 t = stored w t
                \/ stored w1 t = updated wc pwv sc psv (stored w t)).
  { unfold w1. rewrite Hrun. simpl snd. destruct (decide (ids = [])).
    - left. reflexivity.
    - right. apply stored_saved. }
  assert (Hfix : updated wc pwv sc psv (stored w1 t) = stored w1 t
                 \/ ids = []).
  { destruct (decide (ids = [])) as [Hnil|Hcons]; [right; assumption | left].
    unfold w1. rewrite Hrun. simpl snd.
    rewrite stored_saved. apply updated_idem. assumption. }
  assert (HID1 : Forall has_ID (stored w1 t)).
  { destruct Hw1 as [-> | ->]; [assumption | apply updated_has_ID; assumption]. }
  destruct (update_table_sets md t columns pre1 post1 pre2 post2
              sc sv sty wc wv wty psv pwv w1 Hmd Hsc Hpost1 Hwc Hpost2
              Hpsv Hpwv HID1) as (ids' & Hrun' & Hids' & _).
  split; [exists ids'; rewrite Hrun'; reflexivity |].
  unfold w2. rewrite Hrun'. simpl snd.
  destruct (decide (ids' = [])) as [Hnil'|Hcons']; [reflexivity |].
  rewrite stored_saved. destruct Hfix as [Hfix | Hnil]; [exact Hfix |].
  (* the first run matched nothing, so neither does the second *)
  exfalso. subst ids. apply Forall2_nil_inv_r in Hids.
  unfold w1 in Hids'. rewrite Hrun in Hids'. simpl snd in Hids'.
  unfold stored, loaded in Hids'. simpl tables in Hids'.
  fold (stored w t) in Hids'. rewrite Hids in Hids'.
  apply Forall2_nil_inv_l in Hids'. contradiction.
Qed.

Lemma update_table_twice_witness :
  stored (snd (update_table users_md users AGE (str "31") NAME (str "Ann")
                 (snd (update_table users_md users AGE (str "31") NAME
                         (str "Ann") (disk [ann; bob]))))) users
  = stored (snd (update_table users_md users AGE (str "31") NAME (str "Ann")
                   (disk [ann; bob]))) users.
Proof.
  destruct (update_table_twice users_md users (ID_COLUMN :: users_columns)
              [ID_COLUMN; Column NAME T_STR] [Column ACTIVE T_BOOL]
              [ID_COLUMN] [Column AGE T_INT; Column ACTIVE T_BOOL]
              AGE (str "31") T_INT NAME (str "Ann") T_STR
              (VInt 31) (VStr (str "Ann")) (disk [ann; bob]))
    as [_ Hsame].
  - exact users_md_lookup.
  - reflexivity.
  - by_evaluation.
  - reflexivity.
  - by_evaluation.
  - vm_compute. reflexivity.
  - vm_compute. reflexivity.
  - exact two_users_have_ID.
  - discriminate.
  - exact Hsame.
Defined.

(** X15: on a table whose column names are distinct, the search with
    [break] of [select_from] and [delete_from] and the search without
    [break] of [update_table] find the same type for a column: the three
    operations coerce a value for that column in the same way. *)
Theorem type_of_first_last (columns : list column) (c : pystr) :
  NoDup (names columns) ->
  type_of_first columns c = type_of_last columns c.
Proof.
  induction columns as [|col columns IH]; intros Hnd; [reflexivity |].
  apply NoDup_cons in Hnd as [Hcol Hnd]. simpl type_of_first.
  case_bool_decide as Hc.
  - destruct col as [name ty]. simpl in *. subst name.
    symmetry. apply (type_of_last_app [] columns c ty). assumption.
  - rewrite (IH Hnd). unfold type_of_last. simpl.
    rewrite bool_decide_eq_false_2 by assumption. reflexivity.
Qed.

Lemma type_of_first_last_witness :
  type_of_first (ID_COLUMN :: users_columns) AGE
  = type_of_last (ID_COLUMN :: users_columns) AGE.
Proof. apply type_of_first_last. by_evaluation. Defined.

(** ** Record engine: deleting twice *)

Lemma kept_have_ID (wc : pystr) (pv : value) (data : list record) :
  Forall has_ID data ->
  Forall has_ID (filter (fun r => ~ matches wc pv r) data).
Proof.
  rewrite !Forall_forall. intros H r Hr. apply H.
  apply list_elem_of_filter in Hr as [_ Hr]. assumption.
Qed.

Lemma delete_from_run (md : metadata) (t : pystr)
    (pre post : list column) (wc wv ty : pystr) (pv : value) (w : world) :
  md !! t = Some (pre ++ Column wc ty :: post) ->
  (wc ∉ names pre) ->
  parse_value wv ty = Ok pv ->
  Forall has_ID (stored w t) ->
  exists ids,
    delete_from md t wc wv w
    = (Ok ids,
       if decide (ids = []) then loaded w t
       else saved (loaded w t) t
              (filter (fun r => ~ matches wc pv r) (stored w t)))
    /\ Forall2 (fun r i => r !! ID = Some i)
               (filter (fun r => matches wc pv r) (stored w t)) ids.
Proof.
  intros Hmd Hpre Hpv HID.
  destruct (delete_loop_spec wc pv (stored w t) HID) as (ids & Hloop & Hids).
  exists ids. split; [| assumption].
  unfold delete_from. rewrite Hmd. unfold_M. cbv beta iota.
  rewrite type_of_first_app by assumption. rewrite Hpv.
  unfold stored in Hloop. cbv beta iota. rewrite Hloop.
  destruct ids as [|i ids]; reflexivity.
Qed.

(** X16: a delete can be repeated: run a second time with the same
    predicate on what the first run left, it finds no record, reports no ID
    and saves nothing.  The where-value may be empty here: [delete_from] has
    no guard on it. *)
Theorem delete_from_twice (md : metadata) (t : pystr)
    (pre post : list column) (wc wv ty : pystr) (pv : value) (w : world) :
  md !! t = Some (pre ++ Column wc ty :: post) ->
  (wc ∉ names pre) ->
  parse_value wv ty = Ok pv ->
  Forall has_ID (stored w t) ->
  let w1 := snd (delete_from md t wc wv w) in
  delete_from md t wc wv w1 = (Ok [], loaded w1 t)
  /\ stored w1 t = filter (fun r => ~ matches wc pv r) (stored w t).
Proof.
  intros Hmd Hpre Hpv HID w1.
  destruct (delete_from_run md t pre post wc wv ty pv w Hmd Hpre Hpv HID)
    as (ids & Hrun & Hids).
  assert (Hw1 : stored w1 t = filter (fun r => ~ matches wc pv r) (stored w t)).
  { unfold w1. rewrite Hrun. simpl snd.
    destruct ids as [|i ids].
    - apply Forall2_nil_inv_r in Hids. simpl.
      unfold stored, loaded. simpl tables. fold (stored w t).
      clear -Hids. induction (stored w t) as [|r data IH]; [reflexivity |].
      destruct (matches wc pv r) eqn:Hm.
      + rewrite filter_cons_True in Hids by (rewrite Hm; exact I).
        discriminate Hids.
      + rewrite filter_cons_False in Hids by (rewrite Hm; intros []).
        rewrite filter_cons_True by (rewrite Hm; intros []).
        rewrite <- (IH Hids). reflexivity.
    - simpl. apply stored_saved. }
  split; [| exact Hw1].
  assert (HID1 : Forall has_ID (stored w1 t))
    by (rewrite Hw1; apply kept_have_ID; assumption).
  destruct (delete_from_run md t pre post wc wv ty pv w1 Hmd Hpre Hpv HID1)
    as (ids' & Hrun' & Hids').
  rewrite Hw1, filter_matches_kept in Hids'.
  apply Forall2_nil_inv_l in Hids'. subst ids'. exact Hrun'.
Qed.

(** Deleting the records with the empty name twice: the second run finds
    nothing. *)
Lemma delete_from_twice_witness :
  delete_from users_md users NAME []
    (snd (delete_from users_md users NAME [] (disk [ann; eve])))
  = (Ok [],
     loaded (snd (delete_from users_md users NAME [] (disk [ann; eve]))) users).
Proof.
  destruct (delete_from_twice users_md users [ID_COLUMN]
              [Column AGE T_INT; Column ACTIVE T_BOOL] NAME [] T_STR (VStr [])
              (disk [ann; eve])) as [Hagain _].
  - exact users_md_lookup.
  - by_evaluation.
  - vm_compute. reflexivity.
  - repeat constructor.
    + exists (VInt 1). vm_compute. reflexivity.
    + exists (VInt 3). vm_compute. reflexivity.
  - exact Hagain.
Defined.

(** ** Command parser: words and values *)

Lemma parts_space (c : pychar) (s : pystr) :
  is_space c = true -> parse_command_parts (c :: s) = parse_command_parts s.
Proof.
  intros Hc. unfold parse_command_parts. rewrite findall_cons.
  unfold is_plain. rewrite Hc. simpl.
  rewrite (space_not_quote c Hc). reflexivity.
Qed.

Lemma parts_spaces (sep s : pystr) :
  all_of is_space sep ->
  parse_command_parts (sep ++ s) = parse_command_parts s.
Proof.
  induction 1 as [|c sep Hc _ IH]; [reflexivity |].
  simpl. rewrite parts_space by assumption. exact IH.
Qed.

Lemma parts_run (run rest : pystr) :
  run <> [] -> all_of is_plain run -> clean_left is_plain rest ->
  parse_command_parts (run ++ rest) = run :: parse_command_parts rest.
Proof.
  intros Hne Hrun Hrest. unfold parse_command_parts.
  destruct run as [|c run]; [congruence |]. simpl app.
  rewrite findall_cons. pose proof Hrun as Hall.
  apply Forall_cons in Hrun as [Hc Hrun]. rewrite Hc.
  rewrite span_app by assumption. rewrite fmap_cons.
  rewrite strip_quotes_plain by assumption. reflexivity.
Qed.

Lemma join_cons2 (sep x y : pystr) (l : list pystr) :
  join sep (x :: y :: l) = x ++ sep ++ join sep (y :: l).
Proof. reflexivity. Qed.

(** X17: words that are not empty and have neither whitespace nor quotes,
    joined by any non-empty run of whitespace, are split again into the
    same words by [parse_command_parts]. *)
Theorem parse_command_parts_of_joined (sep : pystr) (words : list pystr) :
  sep <> [] -> all_of is_space sep ->
  Forall plain_word words ->
  parse_command_parts (join sep words) = words.
Proof.
  intros Hsep Hspace Hwords.
  assert (Hclean : forall s, clean_left is_plain (sep ++ s)).
  { intros s. destruct sep as [|c sep]; [congruence |]. simpl.
    apply Forall_cons in Hspace as [Hc _]. unfold is_plain. rewrite Hc.
    reflexivity. }
  induction Hwords as [|x words [Hx Hplain] Hrest IH]; [reflexivity |].
  destruct words as [|y words].
  - simpl. rewrite <- (app_nil_r x) at 1.
    rewrite parts_run; [reflexivity | assumption | assumption | exact I].
  - rewrite join_cons2.
    rewrite parts_run; [| assumption | assumption | apply Hclean].
    rewrite parts_spaces by assumption. rewrite IH. reflexivity.
Qed.

Lemma parse_command_parts_of_joined_witness :
  parse_command_parts
    (join [32; 9] [str "create_table"; str "users"; str "name:str"])
  = [str "create_table"; str "users"; str "name:str"].
Proof.
  apply parse_command_parts_of_joined.
  - discriminate.
  - repeat constructor.
  - repeat constructor; try discriminate.
Defined.

Lemma split_on_nonempty (q : pychar) (s : pystr) :
  exists piece pieces, split_on q s = piece :: pieces.
Proof.
  destruct s as [|c s]; simpl; [eauto |].
  destruct (c =? q); [eauto |].
  destruct (split_on q s); eauto.
Qed.

Lemma split_on_length (q : pychar) (s : pystr) :
  length (split_on q s) = S (occurrences q s).
Proof.
  unfold occurrences. induction s as [|c s IH]; [reflexivity |].
  simpl split_on. destruct (N.eqb_spec c q) as [-> | Hne].
  - rewrite filter_cons_True by reflexivity. simpl length. rewrite IH.
    reflexivity.
  - rewrite filter_cons_False by assumption.
    destruct (split_on_nonempty q s) as (piece & pieces & Hs).
    rewrite Hs in *. exact IH.
Qed.

(** X18: splitting at a separator and joining with it gives the text back;
    there is one piece more than there are separators, and no piece has the
    separator in it. *)
Theorem split_on_join (q : pychar) (s : pystr) :
  join [q] (split_on q s) = s
  /\ length (split_on q s) = S (occurrences q s)
  /\ Forall (fun piece => q ∉ piece) (split_on q s).
Proof.
  split; [| split; [apply split_on_length |]].
  - induction s as [|c s IH]; [reflexivity |]. simpl split_on.
    destruct (split_on_nonempty q s) as (piece & pieces & Hs).
    rewrite Hs in *.
    destruct (N.eqb_spec c q) as [-> | Hne].
    + rewrite join_cons2, IH. reflexivity.
    + destruct pieces as [|y pieces].
      * simpl in IH. subst piece. reflexivity.
      * rewrite join_cons2 in *. rewrite <- IH. reflexivity.
  - induction s as [|c s IH]; simpl.
    + repeat constructor. apply not_elem_of_nil.
    + destruct (N.eqb_spec c q) as [-> | Hne].
      * constructor; [apply not_elem_of_nil | assumption].
      * destruct (split_on q s) as [|piece pieces].
        -- repeat constructor. apply not_elem_of_cons.
           split; [congruence | apply not_elem_of_nil].
        -- apply Forall_cons in IH as [Hp Hps]. constructor; [| assumption].
           apply not_elem_of_cons. split; [congruence | assumption].
Qed.

(** X19: the values of an insert command are the pieces between the commas
    of the text in parentheses, so there is one more than there are commas,
    also for commas inside quotes and for empty parentheses.  When that
    number is not the number of user columns, the insert fails with the
    arity error before any document is read. *)
Theorem handle_insert_counts_commas (md : metadata) (t : pystr)
    (columns : list column) (values_str : pystr) (w : world) :
  md !! t = Some columns ->
  S (occurrences COMMA values_str) <> length (user_columns_of columns) ->
  handle_insert_matched md t values_str w
  = (Err (WrongArity (length (user_columns_of columns))
            (S (occurrences COMMA values_str))), w).
Proof.
  intros Hmd Hne. unfold handle_insert_matched, insert_into. rewrite Hmd.
  rewrite length_fmap, split_on_length.
  destruct (Nat.eqb_spec (S (occurrences COMMA values_str))
              (length (user_columns_of columns))) as [Heq | _];
    [contradiction | reflexivity].
Qed.

(** The name [Smith, J] in double quotes is cut at its comma: four values
    for three columns. *)
Lemma handle_insert_counts_commas_witness :
  handle_insert_matched users_md users
    ([DQ] ++ str "Smith, J" ++ [DQ] ++ str ", 30, true") (disk [ann])
  = (Err (WrongArity 3 4), disk [ann]).
Proof.
  apply (handle_insert_counts_commas users_md users (ID_COLUMN :: users_columns)).
  - exact users_md_lookup.
  - vm_compute. discriminate.
Defined.

(** ** Across the schema manager and the record engine *)

(** X20: dropping a table does not remove its records.  While the table is
    dropped, a select and an insert on it fail with the message that it does
    not exist and read nothing; once a table of that name is created again,
    with whatever well-formed columns of distinct names, a select shows the
    records of the old document. *)
Theorem records_survive_drop (md : metadata) (t : pystr)
    (specs : list pystr) (cols : list column) (w : world) :
  is_Some (md !! t) ->
  Forall2 spec_column specs cols ->
  NoDup (names (ID_COLUMN :: cols)) ->
  let md1 := delete t md in
  let md2 := <[t := ID_COLUMN :: cols]> md1 in
  drop_table md t w = (Ok md1, w)
  /\ (forall wc wv, select_from md1 t wc wv w = (Err (NoSuchTable t), w))
  /\ (forall values, insert_into md1 t values w = (Err (NoSuchTable t), w))
  /\ create_table md1 t specs w = (Ok md2, w)
  /\ select_from md2 t None None w = (Ok (stored w t), loaded w t).
Proof.
  intros [old Hold] Hspecs Hnd md1 md2. unfold md2, md1.
  split; [| split; [| split; [| split]]].
  - unfold drop_table. rewrite Hold. reflexivity.
  - intros wc wv. unfold select_from. rewrite lookup_delete_eq. reflexivity.
  - intros values. unfold insert_into. rewrite lookup_delete_eq. reflexivity.
  - unfold create_table. rewrite lookup_delete_eq. unfold_M.
    pose proof (parse_columns_ok _ _ Hspecs) as Hparse. unfold Ok in Hparse.
    rewrite Hparse. reflexivity.
  - rewrite (select_from_all _ t (ID_COLUMN :: cols))
      by apply lookup_insert_eq.
    rewrite shown_distinct by assumption. reflexivity.
Qed.

Lemma records_survive_drop_witness :
  select_from (<[users := ID_COLUMN :: users_columns]> (delete users users_md))
    users None None (disk [ann; bob])
  = (Ok (stored (disk [ann; bob]) users), loaded (disk [ann; bob]) users).
Proof.
  destruct (records_survive_drop users_md users users_specs users_columns
              (disk [ann; bob])) as (_ & _ & _ & _ & Hsel).
  - rewrite users_md_lookup. eexists. reflexivity.
  - exact users_specs_well_formed.
  - by_evaluation.
  - exact Hsel.
Defined.

(** X21: when a value of an insert does not coerce, the error names the
    first column whose value fails and carries the error of the coercion;
    the document has been read and is not saved. *)
Theorem insert_into_first_bad_value (md : metadata) (t : pystr)
    (columns cols1 cols2 : list column) (col : column)
    (good rest : list pystr) (bad : pystr) (e : error)
    (w : world) (ids : list Z) :
  md !! t = Some columns ->
  user_columns_of columns = cols1 ++ col :: cols2 ->
  Forall2 coercible cols1 good ->
  parse_value bad (col_type col) = Err e ->
  length rest = length cols2 ->
  ids_of (stored w t) = Some ids ->
  insert_into md t (good ++ bad :: rest) w
  = (Err (InColumn (col_name col) e), loaded w t).
Proof.
  intros Hmd Hcols Hgood Hbad Hrest Hids.
  assert (Hfill : forall rec,
             fill_record (cols1 ++ col :: cols2) (good ++ bad :: rest) rec
             = Err (InColumn (col_name col) e)).
  { clear -Hgood Hbad. induction Hgood as [|c v cols1 good [x Hx] _ IH];
      intros rec; simpl.
    - unfold Err in Hbad. rewrite Hbad. reflexivity.
    - rewrite Hx. apply IH. }
  unfold insert_into. rewrite Hmd, Hcols.
  replace (length (good ++ bad :: rest) =? length (cols1 ++ col :: cols2))%nat
    with true.
  - pose proof (next_id_ok _ _ Hids) as Hnext.
    unfold_M. unfold stored in Hnext. cbv beta iota delta [negb].
    rewrite Hnext. cbv beta iota. rewrite Hfill. reflexivity.
  - symmetry. apply Nat.eqb_eq. rewrite !length_app. simpl.
    rewrite (Forall2_length _ _ _ Hgood). lia.
Qed.

Lemma insert_into_first_bad_value_witness :
  insert_into users_md users ([str "Bob"] ++ str "old" :: [str "maybe"])
    (disk [ann])
  = (Err (InColumn AGE (CannotConvert (str "old") T_INT)),
     loaded (disk [ann]) users).
Proof.
  apply (insert_into_first_bad_value users_md users (ID_COLUMN :: users_columns)
           [Column NAME T_STR] [Column ACTIVE T_BOOL] (Column AGE T_INT)
           [str "Bob"] [str "maybe"] (str "old")
           (CannotConvert (str "old") T_INT) (disk [ann]) [1%Z]).
  - exact users_md_lookup.
  - vm_compute. reflexivity.
  - repeat constructor. exists (VStr (str "Bob")). vm_compute. reflexivity.
  - vm_compute. reflexivity.
  - reflexivity.
  - vm_compute. reflexivity.
Defined.
